(** * MultiLevelMap (typhonjs-core-utils): a heap model and its properties

    [MultiLevelMap] wraps one JavaScript [Map] whose values may again be
    [Map] objects.  JavaScript maps are mutable objects handled by
    reference: the same [Map] can be stored under several keys, can be
    handed in by the caller as a value, and is handed out by [set] (which
    returns the map that received the write).  The development therefore
    models a store of [Map] objects addressed by location, and every method
    of the class as a state-and-exception computation over that store.

    The other functions of the repository that can be modelled come after
    the class: [Utils.isTypeOf] with its walk of the prototype chain, and
    the base-64 encoder [polyBtoa] of [btoa.js]. *)

From Stdlib Require Import ZArith Lia.
From stdpp Require Import base option list strings numbers.

Local Open Scope Z_scope.
Local Open Scope nat_scope.

(** ** JavaScript values *)

(** Locations of [Map] objects in the store. *)
Abbreviation loc := nat (only parsing).

(** The values that can be used as keys and stored as values.  Numbers are
    restricted to integers (no [NaN], no signed zero), so that the
    SameValueZero comparison used by [Map] is plain equality.  [VSymbol id]
    is a Symbol.  [VMap l] is a reference to the [Map] object at location
    [l].  The other constructors are references to objects that are not
    instances of [Map], told apart by what the class can observe of them,
    which is how they fare when an error message is built from them:
    [VObj id] is an ordinary object, with the string conversion that it
    inherits from [Object.prototype] and without a reference to itself;
    [VObjNullProto id] is an object without a string conversion, such as
    [Object.create(null)]; [VObjCircular id] is an ordinary object that
    refers to itself, which [JSON.stringify] refuses.  Objects that bring
    conversion methods of their own ([toString], [toJSON]), which could run
    any code, are left out. *)
Inductive val : Type :=
  | VUndef
  | VNull
  | VBool (b : bool)
  | VNum (n : Z)
  | VStr (s : string)
  | VSymbol (id : nat)
  | VMap (l : loc)
  | VObj (id : nat)
  | VObjNullProto (id : nat)
  | VObjCircular (id : nat).

Arguments VStr s%_string.
Arguments VNum n%_Z.

#[global] Instance val_eq_dec : EqDecision val.
Proof. solve_decision. Defined.

(** [v instanceof Map], giving the location of the map when it holds. *)
Definition instanceof_Map (v : val) : option loc :=
  match v with
  | VMap l => Some l
  | _ => None
  end.

(** ** The built-in [Map]: insertion-ordered entries *)

Module MapData.

(** The entry list of one [Map] object, in insertion order, with pairwise
    distinct keys. *)
Abbreviation t := (list (val * val)) (only parsing).

Fixpoint get (k : val) (m : t) : option val :=
  match m with
  | [] => None
  | (k', v') :: m' => if decide (k = k') then Some v' else get k m'
  end.

Definition has (k : val) (m : t) : bool :=
  match get k m with
  | Some _ => true
  | None => false
  end.

(** An existing key keeps its position, a new key is appended. *)
Fixpoint set (k v : val) (m : t) : t :=
  match m with
  | [] => [(k, v)]
  | (k', v') :: m' =>
      if decide (k = k') then (k', v) :: m' else (k', v') :: set k v m'
  end.

(** Keys are pairwise distinct in the entry list of a [Map], so at most
    one entry goes; the definition does not rely on it. *)
Fixpoint delete (k : val) (m : t) : t :=
  match m with
  | [] => []
  | (k', v') :: m' =>
      if decide (k = k') then delete k m' else (k', v') :: delete k m'
  end.

End MapData.

(** ** The store and the computations over it *)

(** The store: the [Map] object at location [l] is the [l]-th element.
    Objects are never freed; [new Map()] appends. *)
Abbreviation heap := (list MapData.t) (only parsing).

(** What is thrown.  The class throws [Error] with a fixed message from
    [delete], [get], [has] and [set], and with a message built from the
    offending key and the [keys] array from [s_FIND_CHILD_MAP]:
    [`Could not create child Map as a value already exists for '${key}' in
    keys: ${JSON.stringify(keys)}.`].  Building that message converts the
    key to a string and the array to JSON, and either conversion can throw
    the [TypeError] of the language instead: [BuiltinTypeError]. *)
Inductive Error : Type :=
  | ErrorMessage (message : string)
  | ErrorChildMap (key : val) (keys : list val)
  | BuiltinTypeError.

Arguments ErrorMessage message%_string.

Inductive outcome (A : Type) : Type :=
  | Ret (a : A) (h : heap)
  | Throw (e : Error) (h : heap).
Arguments Ret {A} a h.
Arguments Throw {A} e h.

Definition JS (A : Type) : Type := heap → outcome A.

#[global] Instance JS_ret : MRet JS := λ A a h, Ret a h.
#[global] Instance JS_bind : MBind JS := λ A B f m h,
  match m h with
  | Ret a h' => f a h'
  | Throw e h' => Throw e h'
  end.

Definition throw {A} (e : Error) : JS A := λ h, Throw e h.

(** Reading and writing [Map] objects in the store.  A location outside the
    store does not occur in a JavaScript execution; reads there behave as on
    an empty map and writes do nothing. *)
Definition map_data (h : heap) (l : loc) : MapData.t := default [] (h !! l).

Definition map_get (h : heap) (l : loc) (k : val) : val :=
  default VUndef (MapData.get k (map_data h l)).

Definition map_has (h : heap) (l : loc) (k : val) : bool :=
  MapData.has k (map_data h l).

Definition map_set (h : heap) (l : loc) (k v : val) : heap :=
  <[l := MapData.set k v (map_data h l)]> h.

Definition map_delete (h : heap) (l : loc) (k : val) : heap :=
  <[l := MapData.delete k (map_data h l)]> h.

Definition map_clear (h : heap) (l : loc) : heap := <[l := []]> h.

(** The methods of [Map.prototype] and the constructor, as computations. *)
Definition Map_get (l : loc) (k : val) : JS val := λ h, Ret (map_get h l k) h.
Definition Map_has (l : loc) (k : val) : JS bool := λ h, Ret (map_has h l k) h.
Definition Map_set (l : loc) (k v : val) : JS loc := λ h, Ret l (map_set h l k v).
Definition Map_delete (l : loc) (k : val) : JS bool :=
  λ h, Ret (map_has h l k) (map_delete h l k).
Definition Map_clear (l : loc) : JS unit := λ h, Ret tt (map_clear h l).
Definition Map_size (l : loc) : JS nat := λ h, Ret (length (map_data h l)) h.
Definition new_Map : JS loc := λ h, Ret (length h) (h ++ [[]]).

(** ** Conversions to strings *)

(** The values that can be converted to a string: all but a Symbol and an
    object that has neither [toString] nor [valueOf]. *)
Definition has_string_conversion (v : val) : bool :=
  match v with
  | VSymbol _ | VObjNullProto _ => false
  | _ => true
  end.

(** [`${v}`]: the conversion to a string that a template literal applies,
    which throws a [TypeError] where there is none.  The string itself is
    not modelled. *)
Definition ToString (v : val) : JS unit :=
  if has_string_conversion v then mret tt else throw BuiltinTypeError.

(** Whether [JSON.stringify] meets [v] again while it serialises [v]. *)
Definition is_circular (v : val) : bool :=
  match v with
  | VObjCircular _ => true
  | _ => false
  end.

(** [JSON.stringify(keys)] on an array: it throws a [TypeError] when an
    element is circular.  ([undefined] and a Symbol are written [null] in
    an array, a [Map] and an object without prototype are written as
    objects.)  The string itself is not modelled. *)
Definition JSON_stringify (keys : list val) : JS unit :=
  if existsb is_circular keys then throw BuiltinTypeError else mret tt.

(** ** Iterators *)

Inductive iter_kind : Type := IterKeys | IterValues | IterEntries.

(** What one [next()] yields: a key, a value, or a [[key, value]] pair. *)
Inductive item : Type :=
  | ItemKey (k : val)
  | ItemValue (v : val)
  | ItemEntry (k v : val).

(** An iterator is either a map iterator (a live view on the map at [l],
    positioned at [index]) or the frozen object [s_EMPTY_ITERATOR]. *)
Inductive iterator : Type :=
  | MapIterator (kind : iter_kind) (l : loc) (index : nat)
  | s_EMPTY_ITERATOR.

Definition Map_keys (l : loc) : JS iterator := mret (MapIterator IterKeys l 0).
Definition Map_values (l : loc) : JS iterator := mret (MapIterator IterValues l 0).
Definition Map_entries (l : loc) : JS iterator := mret (MapIterator IterEntries l 0).

(** [it.next()]: [None] stands for [{ done: true }]. *)
Definition iterator_next (it : iterator) : JS (option item * iterator) :=
  λ h,
  match it with
  | s_EMPTY_ITERATOR => Ret (None, s_EMPTY_ITERATOR) h
  | MapIterator kind l i =>
      match map_data h l !! i with
      | None => Ret (None, MapIterator kind l i) h
      | Some (k, v) =>
          let x := match kind with
                   | IterKeys => ItemKey k
                   | IterValues => ItemValue v
                   | IterEntries => ItemEntry k v
                   end in
          Ret (Some x, MapIterator kind l (S i)) h
      end
  end.

(** ** [s_FIND_CHILD_MAP] *)

(** The [for] loop of [s_FIND_CHILD_MAP]: [rest] are the keys from [cntr]
    on, [keys] is the whole array (it appears in the error message),
    [childMap] is the loop variable.  [None] is [null].  The argument of
    [new Error] is evaluated before the error is made: first [`${key}`],
    then [JSON.stringify(keys)]. *)
Fixpoint s_FIND_CHILD_MAP_loop (keys rest : list val) (childMap : loc)
    (create : bool) : JS (option loc) :=
  match rest with
  | [] => mret (Some childMap)
  | key :: rest' =>
      nextMap ← Map_get childMap key;
      match instanceof_Map nextMap with
      | Some nextMap => s_FIND_CHILD_MAP_loop keys rest' nextMap create
      | None =>
          if create then
            occupied ← Map_has childMap key;
            if occupied : bool then
              _ ← ToString key;
              _ ← JSON_stringify keys;
              throw (ErrorChildMap key keys)
            else
              newMap ← new_Map;
              _ ← Map_set childMap key (VMap newMap);
              s_FIND_CHILD_MAP_loop keys rest' newMap create
          else mret None
      end
  end.

Definition s_FIND_CHILD_MAP (keys : list val) (map : loc) (create : bool)
    : JS (option loc) :=
  s_FIND_CHILD_MAP_loop keys keys map create.

(** ** The class *)

(** [keys[i]], which is [undefined] out of range. *)
Definition at_index (keys : list val) (i : nat) : val :=
  default VUndef (keys !! i).

(** [keys.slice(0, n)]. *)
Definition slice0 (keys : list val) (n : nat) : list val := take n keys.

Record MultiLevelMap : Type := { _internalMap : loc }.

Module MultiLevelMap.

(** [new MultiLevelMap()]. *)
Definition constructor : JS MultiLevelMap :=
  map ← new_Map; mret {| _internalMap := map |}.

Definition clear (this : MultiLevelMap) (keys : list val) : JS unit :=
  if length keys =? 0 then Map_clear (_internalMap this)
  else
    map ← s_FIND_CHILD_MAP keys (_internalMap this) false;
    match map with
    | Some map => Map_clear map
    | None => mret tt
    end.

Definition delete (this : MultiLevelMap) (keys : list val) : JS bool :=
  let returnValue := false in
  let keysLength := length keys in
  if keysLength =? 0 then throw (ErrorMessage "delete - no keys specified.")
  else if keysLength =? 1 then Map_delete (_internalMap this) (at_index keys 0)
  else if 1 <? keysLength then
    let mapKeys := slice0 keys (keysLength - 1) in
    map ← s_FIND_CHILD_MAP mapKeys (_internalMap this) false;
    match map with
    | Some map =>
        let indexKey := at_index keys (keysLength - 1) in
        Map_delete map indexKey
    | None => mret returnValue
    end
  else mret returnValue.

Definition entries (this : MultiLevelMap) (keys : list val) : JS iterator :=
  let returnValue := s_EMPTY_ITERATOR in
  if length keys =? 0 then Map_entries (_internalMap this)
  else
    map ← s_FIND_CHILD_MAP keys (_internalMap this) false;
    match map with
    | Some map => Map_entries map
    | None => mret returnValue
    end.

Definition get (this : MultiLevelMap) (keys : list val) : JS val :=
  let returnValue := VUndef in
  let keysLength := length keys in
  if keysLength =? 0 then throw (ErrorMessage "get - no keys specified.")
  else if keysLength =? 1 then Map_get (_internalMap this) (at_index keys 0)
  else if 1 <? keysLength then
    let mapKeys := slice0 keys (keysLength - 1) in
    map ← s_FIND_CHILD_MAP mapKeys (_internalMap this) false;
    match map with
    | Some map =>
        let indexKey := at_index keys (keysLength - 1) in
        Map_get map indexKey
    | None => mret returnValue
    end
  else mret returnValue.

Definition has (this : MultiLevelMap) (keys : list val) : JS bool :=
  let returnValue := false in
  let keysLength := length keys in
  if keysLength =? 0 then throw (ErrorMessage "has - no keys specified.")
  else if keysLength =? 1 then Map_has (_internalMap this) (at_index keys 0)
  else if 1 <? keysLength then
    let mapKeys := slice0 keys (keysLength - 1) in
    map ← s_FIND_CHILD_MAP mapKeys (_internalMap this) false;
    match map with
    | Some map =>
        let indexKey := at_index keys (keysLength - 1) in
        Map_has map indexKey
    | None => mret returnValue
    end
  else mret returnValue.

Definition isMap (this : MultiLevelMap) (keys : list val) : JS bool :=
  let returnValue := false in
  let keysLength := length keys in
  if keysLength =? 0 then mret true
  else if 0 <? keysLength then
    map ← s_FIND_CHILD_MAP keys (_internalMap this) false;
    mret (match map with Some _ => true | None => false end)
  else mret returnValue.

Definition keys (this : MultiLevelMap) (keys : list val) : JS iterator :=
  let returnValue := s_EMPTY_ITERATOR in
  if length keys =? 0 then Map_keys (_internalMap this)
  else
    map ← s_FIND_CHILD_MAP keys (_internalMap this) false;
    match map with
    | Some map => Map_keys map
    | None => mret returnValue
    end.

(** [set] returns the map that [Map.prototype.set] returns, or
    [undefined]. *)
Definition set (this : MultiLevelMap) (params : list val) : JS val :=
  let returnValue := VUndef in
  let keysLength := length params in
  if keysLength =? 0 then
    throw (ErrorMessage "set - no params specified; needs 2 minimum.")
  else if keysLength =? 1 then
    throw (ErrorMessage "set - only 1 param specified; needs 2 minimum.")
  else if keysLength =? 2 then
    map ← Map_set (_internalMap this) (at_index params 0) (at_index params 1);
    mret (VMap map)
  else if 2 <? keysLength then
    let mapKeys := slice0 params (keysLength - 2) in
    map ← s_FIND_CHILD_MAP mapKeys (_internalMap this) true;
    match map with
    | Some map =>
        let indexKey := at_index params (keysLength - 2) in
        let value := at_index params (keysLength - 1) in
        map ← Map_set map indexKey value;
        mret (VMap map)
    | None => mret returnValue
    end
  else mret returnValue.

Definition size (this : MultiLevelMap) (keys : list val) : JS nat :=
  let returnValue := 0 in
  let keysLength := length keys in
  if keysLength =? 0 then Map_size (_internalMap this)
  else if 0 <? keysLength then
    map ← s_FIND_CHILD_MAP keys (_internalMap this) false;
    match map with
    | Some map => Map_size map
    | None => mret returnValue
    end
  else mret returnValue.

Definition values (this : MultiLevelMap) (keys : list val) : JS iterator :=
  let returnValue := s_EMPTY_ITERATOR in
  if length keys =? 0 then Map_values (_internalMap this)
  else
    map ← s_FIND_CHILD_MAP keys (_internalMap this) false;
    match map with
    | Some map => Map_values map
    | None => mret returnValue
    end.

End MultiLevelMap.

(** ** Paths through the store *)

(** What [s_FIND_CHILD_MAP] computes without [create]: the map reached from
    [l] by following [keys] through values that are maps. *)
Fixpoint resolve (h : heap) (l : loc) (keys : list val) : option loc :=
  match keys with
  | [] => Some l
  | k :: keys' =>
      match instanceof_Map (map_get h l k) with
      | Some l' => resolve h l' keys'
      | None => None
      end
  end.

(** The maps reached by the successive non-empty prefixes of [keys], as far
    as they resolve. *)
Fixpoint walk (h : heap) (l : loc) (keys : list val) : list loc :=
  match keys with
  | [] => []
  | k :: keys' =>
      match instanceof_Map (map_get h l k) with
      | Some l' => l' :: walk h l' keys'
      | None => []
      end
  end.

(** Where a walk that starts at [l] ends. *)
Fixpoint endpoint (l : loc) (w : list loc) : loc :=
  match w with
  | [] => l
  | l' :: w' => endpoint l' w'
  end.

(** The slots (a map and a key of it) that are read while [keys] are
    followed from [l]. *)
Fixpoint slots (h : heap) (l : loc) (keys : list val) : list (loc * val) :=
  match keys with
  | [] => []
  | k :: keys' =>
      (l, k) :: match instanceof_Map (map_get h l k) with
                | Some l' => slots h l' keys'
                | None => []
                end
  end.

(** Every map reference stored in the store points into the store, and so
    does the container's root: JavaScript has no dangling references.  The
    constructor establishes this and every method keeps it, as long as the
    values passed in are themselves references into the store
    ([constructor_ok], [set_ok], [delete_ok], [clear_ok]). *)
Definition val_ok (n : nat) (v : val) : Prop :=
  match instanceof_Map v with
  | Some l => l < n
  | None => True
  end.

Definition heap_ok (h : heap) : Prop :=
  Forall (Forall (λ kv : val * val, val_ok (length h) kv.2)) h.

Definition container_ok (c : MultiLevelMap) (h : heap) : Prop :=
  _internalMap c < length h ∧ heap_ok h.

(** The errors of the class, by kind: a missing argument, or a value in the
    way of a child map. *)
Definition ArgumentError (e : Error) : Prop :=
  match e with
  | ErrorMessage _ => True
  | ErrorChildMap _ _ => False
  | BuiltinTypeError => False
  end.

Definition ConflictError (e : Error) : Prop :=
  match e with
  | ErrorMessage _ => False
  | ErrorChildMap _ _ => True
  | BuiltinTypeError => False
  end.

(** Whether the message of the error about a child map can be built: the
    key in the way has a string conversion and the [keys] array can be
    written as JSON. *)
Definition message_ok (key : val) (keys : list val) : bool :=
  has_string_conversion key && negb (existsb is_circular keys).

(** What the search throws when [key] is in the way. *)
Definition conflict_error (key : val) (keys : list val) : Error :=
  if message_ok key keys then ErrorChildMap key keys else BuiltinTypeError.

Definition throws {A} (o : outcome A) : Prop :=
  match o with
  | Ret _ _ => False
  | Throw _ _ => True
  end.

Definition returns {A} (o : outcome A) : Prop :=
  match o with
  | Ret _ _ => True
  | Throw _ _ => False
  end.

(** What the search with [create] leaves behind when it returns: the
    entries that were there are kept, the walk along the keys is the old
    walk followed by the maps created (consecutive new locations), it now
    covers all keys, and it ends in the map returned. *)
Definition create_post (rest : list val) (l : loc) (h : heap) (M : loc)
    (h1 : heap) : Prop :=
  heap_ok h1 ∧ M < length h1 ∧ length h ≤ length h1
  ∧ (∀ l' k' v', MapData.get k' (map_data h l') = Some v' →
                 MapData.get k' (map_data h1 l') = Some v')
  ∧ walk h1 l rest = walk h l rest ++ seq (length h) (length h1 - length h)
  ∧ length (walk h1 l rest) = length rest
  ∧ M = endpoint l (walk h1 l rest)
  ∧ (length h1 = length h → h1 = h)
  ∧ (length h < length h1 →
     length h ≤ M ∧ ∀ s, s ∈ slots h1 l rest → s.1 < M).

(** The write of [set(...K, k, v)] does not land on a slot that is read on
    the way: the map that [K] leads to does not occur earlier on the path
    under the key [k].  It can only fail when a map is reachable from
    itself. *)
Definition write_off_path (h : heap) (l : loc) (K : list val) (k : val)
    : Prop :=
  ∀ M, resolve h l K = Some M → (M, k) ∉ slots h l K.

(** A store in which a map only holds maps created after it: what the
    class builds when the values passed to [set] are not maps, since the
    maps it creates are new.  No map is then reachable from itself. *)
Definition link_ok (n : nat) (l : loc) (v : val) : Prop :=
  match instanceof_Map v with
  | Some l' => l < l' < n
  | None => True
  end.

Definition heap_ranked (h : heap) : Prop :=
  ∀ l m, h !! l = Some m →
         Forall (λ kv : val * val, link_ok (length h) l kv.2) m.

(** ** Sample runs *)

(** A program is run from the empty store. *)
Definition run {A} (p : JS A) : outcome A := p [].

(** [const c = new MultiLevelMap(); const r = c.set('a', 1); c.set('s', r);]
    The root map, which [set] hands out, is stored in itself. *)
Definition self_nested : JS MultiLevelMap :=
  c ← MultiLevelMap.constructor;
  r ← MultiLevelMap.set c [VStr "a"; VNum 1];
  _ ← MultiLevelMap.set c [VStr "s"; r];
  mret c.

(** [const c = new MultiLevelMap(); c.set('a', 1); c.set('b', 'c', 2);] *)
Definition scoped_clear_setup : JS MultiLevelMap :=
  c ← MultiLevelMap.constructor;
  _ ← MultiLevelMap.set c [VStr "a"; VNum 1];
  _ ← MultiLevelMap.set c [VStr "b"; VStr "c"; VNum 2];
  mret c.

(** [const c = new MultiLevelMap(); c.set('x', 'y', 1);] *)
Definition nested_setup : JS MultiLevelMap :=
  c ← MultiLevelMap.constructor;
  _ ← MultiLevelMap.set c [VStr "x"; VStr "y"; VNum 1];
  mret c.

(** [const c = new MultiLevelMap(); c.set('a', 1);] *)
Definition leaf_setup : JS MultiLevelMap :=
  c ← MultiLevelMap.constructor;
  _ ← MultiLevelMap.set c [VStr "a"; VNum 1];
  mret c.

(** ** Notions used for the further properties *)

(** The store that a call leaves, whether it returns or throws. *)
Definition final_store {A} (o : outcome A) : heap :=
  match o with
  | Ret _ h => h
  | Throw _ h => h
  end.


(** The items that up to [n] calls of [next()] yield, until one is done. *)
Fixpoint pull (n : nat) (it : iterator) (h : heap) : list item :=
  match n with
  | 0 => []
  | S n' =>
      match iterator_next it h with
      | Ret (Some x, it') _ => x :: pull n' it' h
      | _ => []
      end
  end.

(** ** The other functions: [Utils] and [btoa] *)

(** How a call that does not touch the store ends: with a value, or with
    an exception, which is the [TypeError] of a built-in or an [Error] that
    the code throws. *)
Inductive exception : Type :=
  | TypeError
  | Thrown (e : Error).

Inductive completion (A : Type) : Type :=
  | Normal (a : A)
  | Abrupt (e : exception).
Arguments Normal {A} a.
Arguments Abrupt {A} e.

(** *** [Utils.isTypeOf]

    The values that [isTypeOf] is about: [null], or an object (a class, a
    prototype object) given with its identity and its prototype, which is
    again [null] or an object.  A prototype chain is finite in JavaScript,
    and the code does not change it, so the objects are taken as they stand
    when the call is made.  [undefined] and the primitive values are left
    out. *)
Inductive ref : Type :=
  | Null
  | Object (id : nat) (proto : ref).

#[global] Instance ref_eq_dec : EqDecision ref.
Proof. solve_decision. Defined.

(** [Object.getPrototypeOf(o)], which throws a [TypeError] on [null]. *)
Definition s_GET_PROTO (o : ref) : completion ref :=
  match o with
  | Null => Abrupt TypeError
  | Object _ proto => Normal proto
  end.

(** The [for] loop of [s_WALK_PROTO], from the current [proto] on.  The
    step [proto = s_GET_PROTO(proto)] is only taken when [proto !== null],
    where it does not throw. *)
Fixpoint s_WALK_PROTO_loop (proto parentType : ref) : bool :=
  match proto with
  | Null => false
  | Object _ next =>
      if decide (proto = parentType) then true
      else s_WALK_PROTO_loop next parentType
  end.

Definition s_WALK_PROTO (childType parentType : ref) : completion bool :=
  match s_GET_PROTO childType with
  | Abrupt e => Abrupt e
  | Normal proto => Normal (s_WALK_PROTO_loop proto parentType)
  end.

Module Utils.

Definition isNullOrUndef (unknown : val) : bool :=
  match unknown with
  | VNull => true
  | VUndef => true
  | _ => false
  end.

Definition isTypeOf (childType parentType : ref) : completion bool :=
  if decide (childType = parentType) then Normal true
  else s_WALK_PROTO childType parentType.

End Utils.

(** The objects on the prototype chain of [o], from [o] itself on. *)
Fixpoint chain (o : ref) : list ref :=
  match o with
  | Null => []
  | Object _ proto => o :: chain proto
  end.

(** *** [btoa.js] *)

Module Btoa.

(** The operators [>>], [<<], [&] and [|] on numbers that are integers:
    the operands are taken to 32 bits, signed. *)
Definition ToInt32 (x : Z) : Z :=
  let m := (x mod 2 ^ 32)%Z in
  if (m <? 2 ^ 31)%Z then m else (m - 2 ^ 32)%Z.

Definition js_shr (x n : Z) : Z := Z.shiftr (ToInt32 x) n.
Definition js_shl (x n : Z) : Z := ToInt32 (Z.shiftl (ToInt32 x) n).
Definition js_and (x y : Z) : Z := Z.land (ToInt32 x) (ToInt32 y).
Definition js_or (x y : Z) : Z := Z.lor (ToInt32 x) (ToInt32 y).

(** A variable that holds [null] or a number, used as a number: [null]
    counts as [0]. *)
Definition num (x : option Z) : Z := default 0%Z x.

(** [s.charAt(pos)], the empty string out of range. *)
Definition charAt (s : string) (pos : Z) : string :=
  if (pos <? 0)%Z then EmptyString
  else match String.get (Z.to_nat pos) s with
       | Some ch => String ch EmptyString
       | None => EmptyString
       end.

Definition s_BTOA_BASE_64_CHARS : string :=
  "ABCDEFGHIJKLMNOPQRSTUVWXYZabcdefghijklmnopqrstuvwxyz0123456789+/"%string.

Definition s_BTOA_GET_CHAR (val : option Z) : string :=
  charAt s_BTOA_BASE_64_CHARS (num val).

Definition s_BTOA_NEW_BINARY (len : nat) : list Z := repeat 0%Z len.

(** The argument: a string, given by its code units ([charCodeAt]), or an
    array of numbers that are integers. *)
Inductive arg : Type :=
  | ArgString (str : list Z)
  | ArgArray (array : list Z).

(** The first loop, over the code units from index [j] on. *)
Fixpoint polyBtoa_fill (rest : list Z) (j : nat) (array : list Z)
    : completion (list Z) :=
  match rest with
  | [] => Normal array
  | ch :: rest' =>
      if (0xFF <? ch)%Z then
        Abrupt (Thrown (ErrorMessage
          "Not ascii. Base64.encode can only take ascii strings"))
      else polyBtoa_fill rest' (S j) (<[j := ch]> array)
  end.

(** The variables [a], [b], [c], [d] and [answer]. *)
Record vars : Type := Vars {
  var_a : option Z;
  var_b : option Z;
  var_c : option Z;
  var_d : option Z;
  answer : list string
}.

(** One turn of the second loop, on [array[i]]. *)
Definition polyBtoa_step (i : nat) (x : Z) (s : vars) : vars :=
  match i mod 3 with
  | 0 =>
      {| var_a := Some (js_and (js_shr x 2) 0x3F);
         var_b := Some (js_shl (js_and x 0x03) 4);
         var_c := var_c s; var_d := var_d s; answer := answer s |}
  | 1 =>
      {| var_a := var_a s;
         var_b := Some (js_or (num (var_b s)) (js_and (js_shr x 4) 0xF));
         var_c := Some (js_shl (js_and x 0xF) 2);
         var_d := var_d s; answer := answer s |}
  | _ =>
      let c := Some (js_or (num (var_c s)) (js_and (js_shr x 6) 0x03)) in
      let d := Some (js_and x 0x3F) in
      {| var_a := None; var_b := None; var_c := None; var_d := None;
         answer := answer s ++ [s_BTOA_GET_CHAR (var_a s);
                                s_BTOA_GET_CHAR (var_b s);
                                s_BTOA_GET_CHAR c;
                                s_BTOA_GET_CHAR d] |}
  end.

(** The second loop, over the elements from index [i] on. *)
Fixpoint polyBtoa_loop (rest : list Z) (i : nat) (s : vars) : vars :=
  match rest with
  | [] => s
  | x :: rest' => polyBtoa_loop rest' (S i) (polyBtoa_step i x s)
  end.

(** What follows the second loop. *)
Definition polyBtoa_finish (s : vars) : string :=
  let answer :=
    match var_a s with
    | None => answer s
    | Some _ =>
        answer s
        ++ [s_BTOA_GET_CHAR (var_a s); s_BTOA_GET_CHAR (var_b s)]
        ++ [match var_c s with
            | None => "="%string
            | Some _ => s_BTOA_GET_CHAR (var_c s)
            end]
        ++ match var_d s with
           | None => ["="%string]
           | Some _ => []
           end
    end in
  String.concat EmptyString answer.

Definition polyBtoa (array : arg) : completion string :=
  let array :=
    match array with
    | ArgString str =>
        polyBtoa_fill str 0 (s_BTOA_NEW_BINARY (length str))
    | ArgArray array => Normal array
    end in
  match array with
  | Abrupt e => Abrupt e
  | Normal array =>
      Normal (polyBtoa_finish
                (polyBtoa_loop array 0 (Vars None None None None [])))
  end.

(** The code units of a string whose characters are below 256. *)
Definition code_units (s : string) : list Z :=
  (λ ch, Z.of_nat (Ascii.nat_of_ascii ch)) <$> String.list_ascii_of_string s.

(** The six-bit groups of three bytes, of two, and of one. *)
Definition sextet1 (x : Z) : Z := (x `mod` 256 / 4)%Z.
Definition sextet2 (x y : Z) : Z := (x `mod` 4 * 16 + y `mod` 256 / 16)%Z.
Definition sextet3 (y z : Z) : Z := (y `mod` 16 * 4 + z `mod` 256 / 64)%Z.
Definition sextet4 (z : Z) : Z := (z `mod` 64)%Z.

(** What the function yields, group by group: used to reason about it. *)
Fixpoint groups (array : list Z) : list string :=
  match array with
  | [] => []
  | [x] =>
      [s_BTOA_GET_CHAR (Some (sextet1 x)); s_BTOA_GET_CHAR (Some (sextet2 x 0));
       "="%string; "="%string]
  | [x; y] =>
      [s_BTOA_GET_CHAR (Some (sextet1 x)); s_BTOA_GET_CHAR (Some (sextet2 x y));
       s_BTOA_GET_CHAR (Some (sextet3 y 0)); "="%string]
  | x :: y :: z :: rest =>
      [s_BTOA_GET_CHAR (Some (sextet1 x)); s_BTOA_GET_CHAR (Some (sextet2 x y));
       s_BTOA_GET_CHAR (Some (sextet3 y z)); s_BTOA_GET_CHAR (Some (sextet4 z))]
      ++ groups rest
  end.

(** The character for a six-bit value [s] is one character of the
    alphabet, it is not the padding character, and no other six-bit value
    has it: the check that is run on each of the 64 values. *)
Definition GET_CHAR_ok (s : Z) : bool :=
  match s_BTOA_GET_CHAR (Some s) with
  | String ch EmptyString =>
      negb (String.eqb (String ch EmptyString) "="%string)
      && existsb (Ascii.eqb ch) (String.list_ascii_of_string s_BTOA_BASE_64_CHARS)
      && forallb (λ t, implb (String.eqb (s_BTOA_GET_CHAR (Some t))
                                (String ch EmptyString)) (t =? s)%Z)
           (Z.of_nat <$> seq 0 64)
  | _ => false
  end.

(** A string all of whose characters are in the alphabet. *)
Definition in_alphabet (s : string) : Prop :=
  Forall (λ ch, ch ∈ String.list_ascii_of_string s_BTOA_BASE_64_CHARS)
    (String.list_ascii_of_string s).

(** A number that is a byte. *)
Definition is_byte (x : Z) : Prop := (0 ≤ x < 256)%Z.

End Btoa.

(** ** Proof automation *)

(** Decides the tests on the number of arguments. *)
Ltac branch :=
  repeat match goal with
    | |- context [?a =? ?b] => destruct (Nat.eqb_spec a b); try lia
    | |- context [?a <? ?b] => destruct (Nat.ltb_spec a b); try lia
    end.

(** Linear arithmetic with division and remainder by constants. *)
Ltac dlia := Z.div_mod_to_equations; lia.

(** Proves [container_ok] and [heap_ok] of a concrete store. *)
Ltac solve_ok :=
  unfold container_ok, heap_ok, val_ok;
  repeat first [split | constructor]; simpl; try lia; try done.

(** ** Facts about the entry list of one [Map] *)

Section MapData_facts.
Implicit Types (k v : val) (m : MapData.t).

Lemma MapData_get_set_eq k v m : MapData.get k (MapData.set k v m) = Some v.
Proof.
  induction m as [|[k' v'] m IH]; simpl.
  - by rewrite decide_True.
  - destruct (decide (k = k')) as [->|Hne]; simpl.
    + by rewrite decide_True.
    + by rewrite decide_False.
Qed.

Lemma MapData_get_set_ne k k' v m :
  k ≠ k' → MapData.get k' (MapData.set k v m) = MapData.get k' m.
Proof.
  intros Hne. induction m as [|[k0 v0] m IH]; simpl.
  - by rewrite decide_False.
  - destruct (decide (k = k0)) as [->|Hne0]; simpl.
    + by rewrite !decide_False.
    + by rewrite IH.
Qed.

Lemma MapData_get_delete_eq k m : MapData.get k (MapData.delete k m) = None.
Proof.
  induction m as [|[k' v'] m IH]; simpl; [done|].
  destruct (decide (k = k')) as [->|Hne]; simpl; [done|].
  by rewrite decide_False.
Qed.

Lemma MapData_get_delete_ne k k' m :
  k ≠ k' → MapData.get k' (MapData.delete k m) = MapData.get k' m.
Proof.
  intros Hne. induction m as [|[k0 v0] m IH]; simpl; [done|].
  destruct (decide (k = k0)) as [->|Hne0]; simpl.
  - by rewrite decide_False.
  - by rewrite IH.
Qed.

Lemma MapData_set_Forall (P : val * val → Prop) k v m :
  (∀ k', P (k', v)) → Forall P m → Forall P (MapData.set k v m).
Proof.
  intros Hv. induction 1 as [|[k' v'] m Hkv Hm IH]; simpl.
  - by repeat constructor.
  - destruct (decide (k = k')); constructor; auto.
Qed.

Lemma MapData_get_Forall (P : val * val → Prop) k v m :
  Forall P m → MapData.get k m = Some v → P (k, v).
Proof.
  induction 1 as [|[k' v'] m Hkv Hm IH]; simpl; [done|].
  destruct (decide (k = k')) as [->|Hne]; [|done].
  by intros [= ->].
Qed.

End MapData_facts.

(** ** Facts about reads and writes in the store *)

Section heap_facts.
Implicit Types (h : heap) (l : loc) (k v : val) (m : MapData.t).

Lemma map_data_insert_eq h l m : l < length h → map_data (<[l := m]> h) l = m.
Proof. intros Hl. unfold map_data. by rewrite list_lookup_insert_eq. Qed.

Lemma map_data_insert_ne h l l' m :
  l ≠ l' → map_data (<[l := m]> h) l' = map_data h l'.
Proof. intros Hne. unfold map_data. by rewrite list_lookup_insert_ne. Qed.

Lemma map_data_app h h2 l : l < length h → map_data (h ++ h2) l = map_data h l.
Proof. intros Hl. unfold map_data. by rewrite lookup_app_l. Qed.

Lemma map_data_new h : map_data (h ++ [[]]) (length h) = [].
Proof. unfold map_data. by rewrite list_lookup_middle. Qed.

Lemma map_data_dangling h l : length h ≤ l → map_data h l = [].
Proof. intros Hl. unfold map_data. by rewrite lookup_ge_None_2. Qed.

Lemma map_get_set_eq h l k v : l < length h → map_get (map_set h l k v) l k = v.
Proof.
  intros Hl. unfold map_get, map_set.
  by rewrite map_data_insert_eq, MapData_get_set_eq.
Qed.

Lemma map_get_set_ne h l k v l' k' :
  (l, k) ≠ (l', k') → map_get (map_set h l k v) l' k' = map_get h l' k'.
Proof.
  intros Hne. unfold map_get, map_set.
  destruct (decide (l = l')) as [<-|Hl]; [|by rewrite map_data_insert_ne].
  destruct (decide (l < length h)) as [Hlt|Hge].
  - rewrite map_data_insert_eq by done.
    rewrite MapData_get_set_ne; [done|congruence].
  - by rewrite list_insert_ge by lia.
Qed.

Lemma map_has_set_eq h l k v : l < length h → map_has (map_set h l k v) l k = true.
Proof.
  intros Hl. unfold map_has, MapData.has, map_set.
  by rewrite map_data_insert_eq, MapData_get_set_eq.
Qed.

Lemma map_get_delete_eq h l k : map_get (map_delete h l k) l k = VUndef.
Proof.
  unfold map_get, map_delete.
  destruct (decide (l < length h)) as [Hlt|Hge].
  - by rewrite map_data_insert_eq, MapData_get_delete_eq.
  - rewrite list_insert_ge by lia. by rewrite map_data_dangling by lia.
Qed.

Lemma map_has_delete_eq h l k : map_has (map_delete h l k) l k = false.
Proof.
  unfold map_has, MapData.has, map_delete.
  destruct (decide (l < length h)) as [Hlt|Hge].
  - by rewrite map_data_insert_eq, MapData_get_delete_eq.
  - rewrite list_insert_ge by lia. by rewrite map_data_dangling by lia.
Qed.

Lemma map_get_delete_ne h l k l' k' :
  (l, k) ≠ (l', k') → map_get (map_delete h l k) l' k' = map_get h l' k'.
Proof.
  intros Hne. unfold map_get, map_delete.
  destruct (decide (l = l')) as [<-|Hl]; [|by rewrite map_data_insert_ne].
  destruct (decide (l < length h)) as [Hlt|Hge].
  - rewrite map_data_insert_eq by done.
    rewrite MapData_get_delete_ne; [done|congruence].
  - by rewrite list_insert_ge by lia.
Qed.

Lemma map_get_clear_ne h l l' k :
  l ≠ l' → map_get (map_clear h l) l' k = map_get h l' k.
Proof. intros Hne. unfold map_get, map_clear. by rewrite map_data_insert_ne. Qed.

(** A key that holds a map is present. *)
Lemma map_get_Map_has h l k l' :
  instanceof_Map (map_get h l k) = Some l' → map_has h l k = true.
Proof.
  unfold map_get, map_has, MapData.has.
  by destruct (MapData.get k (map_data h l)).
Qed.

Lemma instanceof_Map_Some v l : instanceof_Map v = Some l → v = VMap l.
Proof. destruct v; simpl; congruence. Qed.

Lemma heap_ok_get h l k l' :
  heap_ok h → instanceof_Map (map_get h l k) = Some l' → l' < length h.
Proof.
  intros Hok Hget. unfold map_get, map_data in Hget.
  destruct (h !! l) as [m|] eqn:Hl; simpl in Hget; [|done].
  destruct (MapData.get k m) as [v|] eqn:Hk; simpl in Hget; [|done].
  unfold heap_ok in Hok. rewrite Forall_lookup in Hok.
  specialize (Hok _ _ Hl).
  pose proof (MapData_get_Forall _ _ _ _ Hok Hk) as Hv.
  unfold val_ok in Hv. simpl in Hv. by rewrite Hget in Hv.
Qed.

Lemma heap_ok_set h l k v :
  heap_ok h → val_ok (length h) v → heap_ok (map_set h l k v).
Proof.
  intros Hok Hv. unfold heap_ok, map_set in *.
  rewrite length_insert.
  destruct (h !! l) as [m|] eqn:Hl.
  - apply Forall_insert; [done|].
    apply MapData_set_Forall; [done|].
    unfold map_data. rewrite Hl. simpl.
    rewrite Forall_lookup in Hok. by apply (Hok l).
  - rewrite list_insert_ge; [done|]. by apply lookup_ge_None.
Qed.

Lemma val_ok_mono n n' v : n ≤ n' → val_ok n v → val_ok n' v.
Proof. unfold val_ok. destruct (instanceof_Map v); [lia|done]. Qed.

Lemma heap_ok_new h : heap_ok h → heap_ok (h ++ [[]]).
Proof.
  unfold heap_ok. intros Hok. rewrite length_app. simpl.
  apply Forall_app. split; [|by repeat constructor].
  eapply Forall_impl; [|exact Hok]. intros m Hm.
  eapply Forall_impl; [|exact Hm]. intros kv. apply val_ok_mono. lia.
Qed.

End heap_facts.

(** ** Facts about paths *)

Section path_facts.
Implicit Types (h : heap) (l : loc) (k v : val) (keys : list val).

Lemma endpoint_snoc l (w : list loc) x : endpoint l (w ++ [x]) = x.
Proof. revert l. induction w as [|y w IH]; intros l; simpl; [done|apply IH]. Qed.

Lemma resolve_walk h l keys :
  resolve h l keys =
    if decide (length (walk h l keys) = length keys)
    then Some (endpoint l (walk h l keys)) else None.
Proof.
  revert l. induction keys as [|k keys IH]; intros l; simpl; [done|].
  destruct (instanceof_Map (map_get h l k)) as [l'|]; simpl; [|done].
  rewrite IH.
  destruct (decide (length (walk h l' keys) = length keys)).
  - by rewrite decide_True by lia.
  - by rewrite decide_False by lia.
Qed.

Lemma walk_take h l keys n : walk h l (take n keys) = take n (walk h l keys).
Proof.
  revert l n. induction keys as [|k keys IH]; intros l [|n]; simpl; try done.
  destruct (instanceof_Map (map_get h l k)) as [l'|]; simpl; [|done].
  by rewrite IH.
Qed.

Lemma walk_length h l keys : length (walk h l keys) ≤ length keys.
Proof.
  revert l. induction keys as [|k keys IH]; intros l; simpl; [done|].
  destruct (instanceof_Map (map_get h l k)) as [l'|]; simpl; [|lia].
  specialize (IH l'). lia.
Qed.

Lemma slots_take h l keys n s :
  s ∈ slots h l (take n keys) → s ∈ slots h l keys.
Proof.
  revert l n. induction keys as [|k keys IH]; intros l [|n]; simpl;
    try (by intros ?%elem_of_nil).
  rewrite !elem_of_cons. intros [->|Hs]; [by left|right].
  destruct (instanceof_Map (map_get h l k)) as [l'|]; [by eapply IH|].
  by apply elem_of_nil in Hs.
Qed.

(** Two stores that agree on the slots read along [keys] give the same
    walk. *)
Lemma path_ext h h' l keys :
  (∀ s, s ∈ slots h l keys → map_get h' s.1 s.2 = map_get h s.1 s.2) →
  walk h' l keys = walk h l keys ∧ resolve h' l keys = resolve h l keys
  ∧ slots h' l keys = slots h l keys.
Proof.
  revert l. induction keys as [|k keys IH]; intros l Hs; simpl; [done|].
  simpl in Hs. pose proof (Hs (l, k) ltac:(by left)) as Hk. simpl in Hk.
  rewrite Hk.
  destruct (instanceof_Map (map_get h l k)) as [l'|]; [|done].
  destruct (IH l') as (-> & -> & ->); [|done].
  intros s Hin. apply Hs. by right.
Qed.

Lemma walk_ok h l keys :
  heap_ok h → Forall (λ x, x < length h) (walk h l keys).
Proof.
  intros Hok. revert l. induction keys as [|k keys IH]; intros l; simpl; [done|].
  destruct (instanceof_Map (map_get h l k)) as [l'|] eqn:Hget; [|done].
  constructor; [by eapply heap_ok_get|done].
Qed.

End path_facts.

(** ** Facts about [s_FIND_CHILD_MAP] *)

Section find_child_map.
Implicit Types (h : heap) (l : loc) (k v : val) (keys rest : list val).

(** Without [create] the search neither throws nor writes. *)
Lemma find_lookup keys rest l h :
  s_FIND_CHILD_MAP_loop keys rest l false h = Ret (resolve h l rest) h.
Proof.
  revert l. induction rest as [|k rest IH]; intros l; simpl; [done|].
  unfold mbind, JS_bind, Map_get.
  destruct (instanceof_Map (map_get h l k)); [by rewrite IH|done].
Qed.

Lemma s_FIND_CHILD_MAP_lookup keys l h :
  s_FIND_CHILD_MAP keys l false h = Ret (resolve h l keys) h.
Proof. apply find_lookup. Qed.

(** Building the message and throwing: what is thrown is the error about
    the child map when the message can be built, and the [TypeError] of the
    conversion that fails otherwise. *)
Lemma conflict_throw {A} key keys h :
  (_ ← ToString key; _ ← JSON_stringify keys;
   throw (A := A) (ErrorChildMap key keys)) h
  = Throw (conflict_error key keys) h.
Proof.
  unfold conflict_error, message_ok, mbind, JS_bind, ToString, JSON_stringify.
  destruct (has_string_conversion key); [|done].
  by destruct (existsb is_circular keys).
Qed.

Lemma conflict_error_kind key keys e :
  e = conflict_error key keys → ConflictError e →
  e = ErrorChildMap key keys ∧ message_ok key keys = true.
Proof.
  unfold conflict_error. intros ->. by destruct (message_ok key keys).
Qed.

Lemma conflict_error_not_argument key keys :
  ¬ ArgumentError (conflict_error key keys).
Proof. unfold conflict_error. destruct (message_ok key keys); intros []. Qed.

(** One turn of the loop with [create]. *)
Lemma find_create_step keys k rest l h :
  s_FIND_CHILD_MAP_loop keys (k :: rest) l true h =
    match instanceof_Map (map_get h l k) with
    | Some l' => s_FIND_CHILD_MAP_loop keys rest l' true h
    | None =>
        if map_has h l k then Throw (conflict_error k keys) h
        else s_FIND_CHILD_MAP_loop keys rest (length h) true
               (map_set (h ++ [[]]) l k (VMap (length h)))
    end.
Proof.
  simpl. unfold mbind at 1 2, JS_bind at 1 2, Map_get, Map_has.
  destruct (instanceof_Map (map_get h l k)); [done|].
  destruct (map_has h l k); [apply conflict_throw|done].
Qed.

(** From a map that was just created nothing is in the way. *)
Lemma find_create_fresh keys rest l h :
  l < length h → map_data h l = [] →
  returns (s_FIND_CHILD_MAP_loop keys rest l true h).
Proof.
  revert l h. induction rest as [|k rest IH]; intros l h Hl Hempty; [done|].
  rewrite find_create_step. unfold map_get, map_has, MapData.has.
  rewrite Hempty. simpl. apply IH.
  - unfold map_set. rewrite length_insert, length_app. simpl. lia.
  - unfold map_set. rewrite map_data_insert_ne by lia. apply map_data_new.
Qed.

End find_child_map.

Section find_child_map_create.
Implicit Types (h : heap) (l : loc) (k v : val) (keys rest : list val).

Lemma frame_get_Map h h1 l k l' :
  (∀ l' k' v', MapData.get k' (map_data h l') = Some v' →
               MapData.get k' (map_data h1 l') = Some v') →
  instanceof_Map (map_get h l k) = Some l' →
  map_get h1 l k = VMap l'.
Proof.
  intros Hframe Hget. unfold map_get in *.
  destruct (MapData.get k (map_data h l)) as [v|] eqn:Hk; [|done].
  rewrite (Hframe _ _ _ Hk). simpl in *. by apply instanceof_Map_Some.
Qed.

Lemma walk_fresh h l rest : map_data h l = [] → walk h l rest = [].
Proof.
  intros Hempty. destruct rest as [|k rest]; simpl; [done|].
  unfold map_get. by rewrite Hempty.
Qed.

Lemma find_create_spec keys rest l h r h1 :
  heap_ok h → l < length h →
  s_FIND_CHILD_MAP_loop keys rest l true h = Ret r h1 →
  ∃ M, r = Some M ∧ create_post rest l h M h1.
Proof.
  revert l h. induction rest as [|k rest IH]; intros l h Hok Hl Hrun.
  { simpl in Hrun. injection Hrun as <- <-. exists l.
    split; [done|]. unfold create_post. simpl.
    rewrite Nat.sub_diag. simpl. repeat split; auto; lia. }
  rewrite find_create_step in Hrun.
  destruct (instanceof_Map (map_get h l k)) as [l'|] eqn:Hget.
  - (* the key holds a map: descend *)
    assert (l' < length h) as Hl' by (by eapply heap_ok_get).
    destruct (IH _ _ Hok Hl' Hrun)
      as (M & -> & Hok1 & HM & Hlen & Hframe & Hwalk & Hfull & Hend & Hsame & Hnew).
    exists M. split; [done|]. unfold create_post. simpl.
    rewrite Hget, (frame_get_Map _ _ _ _ _ Hframe Hget). simpl.
    split_and!; try done.
    + by rewrite Hwalk.
    + by rewrite Hfull.
    + intros Hlt. destruct (Hnew Hlt) as [HleM Hslots]. split; [done|].
      intros s [->|Hs]%elem_of_cons; [simpl; lia|by apply Hslots].
  - destruct (map_has h l k) eqn:Hhas; [done|].
    (* the key is free: a map is created at [length h] *)
    set (n := length h) in *.
    set (h' := map_set (h ++ [[]]) l k (VMap n)) in *.
    assert (length h' = S n) as Hlen'.
    { unfold h', map_set. rewrite length_insert, length_app. simpl. lia. }
    assert (heap_ok h') as Hok'.
    { apply heap_ok_set; [by apply heap_ok_new|].
      unfold val_ok. simpl. rewrite length_app. simpl. lia. }
    assert (map_data h' n = []) as Hempty.
    { unfold h', map_set. rewrite map_data_insert_ne by lia. apply map_data_new. }
    assert (MapData.get k (map_data h' l) = Some (VMap n)) as Hlink.
    { unfold h', map_set. rewrite map_data_insert_eq, MapData_get_set_eq; [done|].
      rewrite length_app. simpl. lia. }
    destruct (IH n h' Hok' ltac:(lia) Hrun)
      as (M & -> & Hok1 & HM & Hlen & Hframe & Hwalk & Hfull & Hend & Hsame & Hnew).
    assert (map_get h1 l k = VMap n) as Hget1.
    { unfold map_get. by rewrite (Hframe _ _ _ Hlink). }
    rewrite (walk_fresh _ _ _ Hempty) in Hwalk. simpl in Hwalk.
    exists M. split; [done|]. unfold create_post. simpl.
    rewrite Hget, Hget1. simpl.
    assert (length h' = length h1 → rest = [] ∧ M = n) as Hnone.
    { intros Heq. rewrite Hwalk in Hfull, Hend.
      replace (length h1 - length h') with 0 in Hfull, Hend by lia.
      simpl in *. by destruct rest. }
    split_and!; try done; try lia.
    + intros l0 k0 v0 Hk0. apply Hframe.
      destruct (decide (l0 < n)) as [Hlt|Hge].
      * unfold h', map_set.
        destruct (decide (l = l0)) as [<-|Hne].
        -- rewrite map_data_insert_eq by (rewrite length_app; simpl; lia).
           rewrite map_data_app by done.
           rewrite MapData_get_set_ne; [done|].
           intros <-. unfold map_has, MapData.has in Hhas. by rewrite Hk0 in Hhas.
        -- rewrite map_data_insert_ne by done. by rewrite map_data_app.
      * rewrite map_data_dangling in Hk0 by (fold n; lia). done.
    + rewrite Hwalk, Hlen'. fold n.
      replace (length h1 - n) with (S (length h1 - S n)) by lia. done.
    + intros _. destruct (decide (length h' < length h1)) as [Hlt|Hge].
      * destruct (Hnew Hlt) as [HleM Hslots]. split; [lia|].
        intros s [->|Hs]%elem_of_cons; [simpl; lia|by apply Hslots].
      * destruct Hnone as [-> ->]; [lia|]. split; [done|].
        intros s [->|Hs]%elem_of_cons; [simpl; lia|by apply elem_of_nil in Hs].
Qed.

(** When the search with [create] throws, nothing has been written, and
    the error is the one for the key at which a value that is not a map is
    in the way, together with the [keys] array of the call. *)
Lemma find_create_throw keys rest l h e h1 :
  heap_ok h → l < length h →
  s_FIND_CHILD_MAP_loop keys rest l true h = Throw e h1 →
  h1 = h ∧ ∃ i key M,
    e = conflict_error key keys ∧ rest !! i = Some key
    ∧ resolve h l (take i rest) = Some M
    ∧ map_has h M key = true ∧ instanceof_Map (map_get h M key) = None.
Proof.
  revert l. induction rest as [|k rest IH]; intros l Hok Hl Hrun; [done|].
  rewrite find_create_step in Hrun.
  destruct (instanceof_Map (map_get h l k)) as [l'|] eqn:Hget.
  - assert (l' < length h) as Hl' by (by eapply heap_ok_get).
    destruct (IH _ Hok Hl' Hrun) as (-> & i & key & M & -> & Hi & Hres & Hhas & Hnm).
    split; [done|]. exists (S i), key, M. simpl. by rewrite Hget.
  - destruct (map_has h l k) eqn:Hhas.
    + injection Hrun as <- <-. split; [done|]. by exists 0, k, l.
    + exfalso.
      pose proof (find_create_fresh keys rest (length h)
        (map_set (h ++ [[]]) l k (VMap (length h)))) as Hret.
      rewrite Hrun in Hret. apply Hret.
      * unfold map_set. rewrite length_insert, length_app. simpl. lia.
      * unfold map_set. rewrite map_data_insert_ne by lia. apply map_data_new.
Qed.

End find_child_map_create.

(** ** The methods in terms of paths *)

Section methods.
Implicit Types (c : MultiLevelMap) (h : heap) (l : loc) (k v : val)
  (K keys : list val).

Lemma slice0_snoc K k : slice0 (K ++ [k]) (length (K ++ [k]) - 1) = K.
Proof.
  unfold slice0. rewrite length_app. simpl.
  replace (length K + 1 - 1) with (length K) by lia. by rewrite take_app_length.
Qed.

Lemma at_index_snoc K k : at_index (K ++ [k]) (length (K ++ [k]) - 1) = k.
Proof.
  unfold at_index. rewrite length_app. simpl.
  replace (length K + 1 - 1) with (length K) by lia. by rewrite list_lookup_middle.
Qed.

Lemma slice0_snoc2 K k v : slice0 (K ++ [k; v]) (length (K ++ [k; v]) - 2) = K.
Proof.
  unfold slice0. rewrite length_app. simpl.
  replace (length K + 2 - 2) with (length K) by lia. by rewrite take_app_length.
Qed.

Lemma at_index_snoc2_key K k v :
  at_index (K ++ [k; v]) (length (K ++ [k; v]) - 2) = k.
Proof.
  unfold at_index. rewrite length_app. simpl.
  replace (length K + 2 - 2) with (length K) by lia. by rewrite list_lookup_middle.
Qed.

Lemma at_index_snoc2_value K k v :
  at_index (K ++ [k; v]) (length (K ++ [k; v]) - 1) = v.
Proof.
  unfold at_index. rewrite length_app. simpl.
  replace (K ++ [k; v]) with ((K ++ [k]) ++ [v]) by (by rewrite <- app_assoc).
  rewrite list_lookup_middle; [done|]. rewrite length_app. simpl. lia.
Qed.

Lemma get_path c K k h :
  MultiLevelMap.get c (K ++ [k]) h =
    Ret (match resolve h (_internalMap c) K with
         | Some M => map_get h M k
         | None => VUndef
         end) h.
Proof.
  unfold MultiLevelMap.get. cbv zeta.
  destruct K as [|k0 K]; [done|].
  rewrite slice0_snoc, at_index_snoc.
  assert (1 < length ((k0 :: K) ++ [k])) by (rewrite length_app; simpl; lia).
  branch. unfold mbind, JS_bind. rewrite s_FIND_CHILD_MAP_lookup.
  by destruct (resolve h (_internalMap c) (k0 :: K)).
Qed.

Lemma has_path c K k h :
  MultiLevelMap.has c (K ++ [k]) h =
    Ret (match resolve h (_internalMap c) K with
         | Some M => map_has h M k
         | None => false
         end) h.
Proof.
  unfold MultiLevelMap.has. cbv zeta.
  destruct K as [|k0 K]; [done|].
  rewrite slice0_snoc, at_index_snoc.
  assert (1 < length ((k0 :: K) ++ [k])) by (rewrite length_app; simpl; lia).
  branch. unfold mbind, JS_bind. rewrite s_FIND_CHILD_MAP_lookup.
  by destruct (resolve h (_internalMap c) (k0 :: K)).
Qed.

Lemma delete_path c K k h :
  MultiLevelMap.delete c (K ++ [k]) h =
    match resolve h (_internalMap c) K with
    | Some M => Ret (map_has h M k) (map_delete h M k)
    | None => Ret false h
    end.
Proof.
  unfold MultiLevelMap.delete. cbv zeta.
  destruct K as [|k0 K]; [done|].
  rewrite slice0_snoc, at_index_snoc.
  assert (1 < length ((k0 :: K) ++ [k])) by (rewrite length_app; simpl; lia).
  branch. unfold mbind, JS_bind. rewrite s_FIND_CHILD_MAP_lookup.
  by destruct (resolve h (_internalMap c) (k0 :: K)).
Qed.

Lemma set_path c K k v h :
  MultiLevelMap.set c (K ++ [k; v]) h =
    match s_FIND_CHILD_MAP K (_internalMap c) true h with
    | Ret (Some M) h1 => Ret (VMap M) (map_set h1 M k v)
    | Ret None h1 => Ret VUndef h1
    | Throw e h1 => Throw e h1
    end.
Proof.
  unfold MultiLevelMap.set. cbv zeta.
  destruct K as [|k0 K]; [done|].
  rewrite slice0_snoc2, at_index_snoc2_key, at_index_snoc2_value.
  assert (2 < length ((k0 :: K) ++ [k; v])) by (rewrite length_app; simpl; lia).
  branch. unfold mbind, JS_bind.
  by destruct (s_FIND_CHILD_MAP (k0 :: K) (_internalMap c) true h) as [[M|] h1|e h1].
Qed.

Lemma isMap_path c keys h :
  MultiLevelMap.isMap c keys h =
    Ret (match resolve h (_internalMap c) keys with
         | Some _ => true
         | None => false
         end) h.
Proof.
  unfold MultiLevelMap.isMap. cbv zeta.
  destruct keys as [|k0 K]; [done|].
  assert (0 < length (k0 :: K)) by (simpl; lia). branch.
  unfold mbind, JS_bind. by rewrite s_FIND_CHILD_MAP_lookup.
Qed.

Lemma size_path c keys h :
  MultiLevelMap.size c keys h =
    Ret (match resolve h (_internalMap c) keys with
         | Some M => length (map_data h M)
         | None => 0
         end) h.
Proof.
  unfold MultiLevelMap.size. cbv zeta.
  destruct keys as [|k0 K]; [done|].
  assert (0 < length (k0 :: K)) by (simpl; lia). branch.
  unfold mbind, JS_bind. rewrite s_FIND_CHILD_MAP_lookup.
  by destruct (resolve h (_internalMap c) (k0 :: K)).
Qed.

Lemma clear_path c keys h :
  MultiLevelMap.clear c keys h =
    Ret tt (match resolve h (_internalMap c) keys with
            | Some M => map_clear h M
            | None => h
            end).
Proof.
  unfold MultiLevelMap.clear.
  destruct keys as [|k0 K]; [done|].
  assert (0 < length (k0 :: K)) by (simpl; lia). branch.
  unfold mbind, JS_bind. rewrite s_FIND_CHILD_MAP_lookup.
  by destruct (resolve h (_internalMap c) (k0 :: K)).
Qed.

Lemma keys_path c keys h :
  MultiLevelMap.keys c keys h =
    Ret (match resolve h (_internalMap c) keys with
         | Some M => MapIterator IterKeys M 0
         | None => s_EMPTY_ITERATOR
         end) h.
Proof.
  unfold MultiLevelMap.keys. cbv zeta.
  destruct keys as [|k0 K]; [done|].
  assert (0 < length (k0 :: K)) by (simpl; lia). branch.
  unfold mbind, JS_bind. rewrite s_FIND_CHILD_MAP_lookup.
  by destruct (resolve h (_internalMap c) (k0 :: K)).
Qed.

Lemma values_path c keys h :
  MultiLevelMap.values c keys h =
    Ret (match resolve h (_internalMap c) keys with
         | Some M => MapIterator IterValues M 0
         | None => s_EMPTY_ITERATOR
         end) h.
Proof.
  unfold MultiLevelMap.values. cbv zeta.
  destruct keys as [|k0 K]; [done|].
  assert (0 < length (k0 :: K)) by (simpl; lia). branch.
  unfold mbind, JS_bind. rewrite s_FIND_CHILD_MAP_lookup.
  by destruct (resolve h (_internalMap c) (k0 :: K)).
Qed.

Lemma entries_path c keys h :
  MultiLevelMap.entries c keys h =
    Ret (match resolve h (_internalMap c) keys with
         | Some M => MapIterator IterEntries M 0
         | None => s_EMPTY_ITERATOR
         end) h.
Proof.
  unfold MultiLevelMap.entries. cbv zeta.
  destruct keys as [|k0 K]; [done|].
  assert (0 < length (k0 :: K)) by (simpl; lia). branch.
  unfold mbind, JS_bind. rewrite s_FIND_CHILD_MAP_lookup.
  by destruct (resolve h (_internalMap c) (k0 :: K)).
Qed.

End methods.

(** ** Writing with [set] and reading back *)

Section set_facts.
Implicit Types (c : MultiLevelMap) (h : heap) (l : loc) (k v : val)
  (K keys : list val).

(** The map that the first [S i] keys lead to is the [i]-th map of the walk. *)
Lemma resolve_prefix h l keys i :
  i < length keys → resolve h l (take (S i) keys) = walk h l keys !! i.
Proof.
  revert l i. induction keys as [|k keys IH]; intros l i Hi; simpl in *; [lia|].
  destruct (instanceof_Map (map_get h l k)) as [l'|]; [|done].
  destruct i as [|i]; simpl.
  - by destruct keys.
  - apply IH. lia.
Qed.

Lemma create_post_resolve K l h M h1 :
  create_post K l h M h1 → resolve h1 l K = Some M.
Proof.
  intros (_ & _ & _ & _ & _ & Hfull & Hend & _).
  rewrite resolve_walk, decide_True by done. by rewrite Hend.
Qed.

(** After the search with [create], a write that is off the path in the
    old store is off the path in the new one. *)
Lemma create_post_off_path K l h M h1 k s :
  l < length h → create_post K l h M h1 → write_off_path h l K k →
  s ∈ slots h1 l K → (M, k) ≠ s.
Proof.
  intros Hl Hpost Hoff Hs.
  pose proof (create_post_resolve _ _ _ _ _ Hpost) as Hres.
  destruct Hpost as (_ & _ & Hlen & _ & _ & _ & _ & Hsame & Hnew).
  destruct (decide (length h < length h1)) as [Hlt|Hge].
  - destruct (Hnew Hlt) as [_ Hslots]. specialize (Hslots _ Hs).
    intros <-. simpl in Hslots. lia.
  - rewrite (Hsame ltac:(lia)) in *. intros <-. by apply (Hoff M).
Qed.

Lemma write_keeps_path K l h M h1 k v :
  l < length h → create_post K l h M h1 → write_off_path h l K k →
  walk (map_set h1 M k v) l K = walk h1 l K
  ∧ resolve (map_set h1 M k v) l K = Some M.
Proof.
  intros Hl Hpost Hoff.
  destruct (path_ext h1 (map_set h1 M k v) l K) as (Hw & Hr & _).
  { intros [l' k'] Hs. simpl. apply map_get_set_ne.
    by eapply create_post_off_path. }
  split; [done|]. rewrite Hr. by eapply create_post_resolve.
Qed.

(** A list of at least two parameters ends in a key and a value. *)
Lemma params_inv (params : list val) :
  2 ≤ length params → ∃ K k v, params = K ++ [k; v].
Proof.
  intros Hlen. exists (take (length params - 2) params).
  pose proof (take_drop (length params - 2) params) as Hsplit.
  pose proof (length_drop params (length params - 2)) as Hdrop.
  destruct (drop (length params - 2) params) as [|k [|v [|]]] eqn:Hd;
    simpl in Hdrop; try lia.
  by exists k, v.
Qed.

Lemma keys_inv (keys : list val) : keys ≠ [] → ∃ K k, keys = K ++ [k].
Proof.
  induction keys as [|k0 keys IH] using rev_ind; [done|]. intros _. by exists keys, k0.
Qed.

(** What [s_FIND_CHILD_MAP] throws is the error for a key in the way, on
    the [keys] it was called with. *)
Lemma find_throw_kind keys rest l create h e h1 :
  s_FIND_CHILD_MAP_loop keys rest l create h = Throw e h1 →
  ∃ key, e = conflict_error key keys.
Proof.
  destruct create; [|by rewrite find_lookup].
  revert l h. induction rest as [|k rest IH]; intros l h; [done|].
  rewrite find_create_step.
  destruct (instanceof_Map (map_get h l k)); [apply IH|].
  destruct (map_has h l k); [|apply IH].
  intros [= <- <-]. by exists k.
Qed.

(** [set] with at least two parameters, on a container without dangling
    references: either it throws out of the search and the store is as it
    was, or the search returns a map and the write goes there. *)
Lemma set_inv c h K k v :
  container_ok c h →
  (∃ e, MultiLevelMap.set c (K ++ [k; v]) h = Throw e h
        ∧ s_FIND_CHILD_MAP K (_internalMap c) true h = Throw e h)
  ∨ (∃ M h1, MultiLevelMap.set c (K ++ [k; v]) h = Ret (VMap M) (map_set h1 M k v)
        ∧ s_FIND_CHILD_MAP K (_internalMap c) true h = Ret (Some M) h1
        ∧ create_post K (_internalMap c) h M h1).
Proof.
  intros [Hroot Hok]. rewrite set_path. unfold s_FIND_CHILD_MAP.
  destruct (s_FIND_CHILD_MAP_loop K K (_internalMap c) true h) as [r h1|e h1] eqn:Hrun.
  - destruct (find_create_spec _ _ _ _ _ _ Hok Hroot Hrun) as (M & -> & Hpost).
    right. by exists M, h1.
  - destruct (find_create_throw _ _ _ _ _ _ Hok Hroot Hrun) as (-> & _).
    left. by exists e.
Qed.

End set_facts.

(** ** No dangling references: an invariant of every run *)

Section store_invariant.
Implicit Types (c : MultiLevelMap) (h : heap) (l : loc) (k v : val)
  (params keys : list val).




(** [new MultiLevelMap()] gives a container without dangling references. *)
Lemma constructor_ok h c h' :
  heap_ok h → MultiLevelMap.constructor h = Ret c h' → container_ok c h'.
Proof.
  intros Hok [= <- <-]. split; [|by apply heap_ok_new].
  simpl. rewrite length_app. simpl. lia.
Qed.




End store_invariant.

(** ** Stores in which a map only holds later maps *)

Section ranked.
Implicit Types (c : MultiLevelMap) (h : heap) (l M : loc) (k v : val)
  (K keys : list val).

Lemma heap_ranked_get h l k l' :
  heap_ranked h → instanceof_Map (map_get h l k) = Some l' →
  l < l' < length h.
Proof.
  intros Hr Hget. unfold map_get, map_data in Hget.
  destruct (h !! l) as [m|] eqn:Hl; simpl in Hget; [|done].
  destruct (MapData.get k m) as [v|] eqn:Hk; simpl in Hget; [|done].
  pose proof (MapData_get_Forall _ _ _ _ (Hr _ _ Hl) Hk) as Hv.
  unfold link_ok in Hv. simpl in Hv. by rewrite Hget in Hv.
Qed.


(** Along a path the locations grow, so the map reached is none of the maps
    read on the way. *)
Lemma ranked_slots h l K M :
  heap_ranked h → resolve h l K = Some M →
  l ≤ M ∧ ∀ s, s ∈ slots h l K → s.1 < M.
Proof.
  intros Hr. revert l. induction K as [|k K IH]; intros l; simpl.
  - intros [= <-]. split; [done|]. by intros s ?%elem_of_nil.
  - destruct (instanceof_Map (map_get h l k)) as [l'|] eqn:Hget; [|done].
    intros Hres. destruct (IH _ Hres) as [Hle Hslots].
    pose proof (heap_ranked_get _ _ _ _ Hr Hget).
    split; [lia|]. intros s [->|Hs]%elem_of_cons; [simpl; lia|by apply Hslots].
Qed.


Lemma ranked_off_walk h l K M :
  heap_ranked h → resolve h l K = Some M → M ∉ (slots h l K).*1.
Proof.
  intros Hr Hres [s [-> Hin]]%list_elem_of_fmap_1.
  destruct (ranked_slots _ _ _ _ Hr Hres) as [_ Hslots].
  specialize (Hslots _ Hin). lia.
Qed.








End ranked.

(** * The claims *)

(** ** C1: reading back what [set] wrote *)

(** C1, as stated, fails when a map contains itself: after
    [const r = c.set('a', 1); c.set('s', r)] the root is stored in itself
    under ['s'], the call [c.set('s', 's', 5)] returns without throwing and
    overwrites that very entry, and then [c.get('s', 's')] is [undefined]
    and [c.has('s', 's')] is [false]. *)
Lemma set_get_has_self_nested :
  let c := {| _internalMap := 0 |} in
  let h := [[(VStr "a", VNum 1); (VStr "s", VMap 0)]] in
  let h' := [[(VStr "a", VNum 1); (VStr "s", VNum 5)]] in
  run self_nested = Ret c h ∧ container_ok c h
  ∧ MultiLevelMap.set c [VStr "s"; VStr "s"; VNum 5] h = Ret (VMap 0) h'
  ∧ MultiLevelMap.get c [VStr "s"; VStr "s"] h' = Ret VUndef h'
  ∧ MultiLevelMap.get c [VStr "s"; VStr "s"] h' ≠ Ret (VNum 5) h'
  ∧ MultiLevelMap.has c [VStr "s"; VStr "s"] h' = Ret false h'
  ∧ MultiLevelMap.has c [VStr "s"; VStr "s"] h' ≠ Ret true h'.
Proof.
  split_and!; try reflexivity; try solve_ok; vm_compute; discriminate.
Qed.

(** C1 (amended): for every key sequence [K ++ [k]] and every value [v], on
    a container without dangling references, if [set(...K, k, v)] returns,
    and the write is off the path (the slot written is not one of the slots
    read while [K] is resolved), then right afterwards [get(...K, k)]
    returns [v] and [has(...K, k)] returns [true].  The write is off the
    path in every ranked store ([ranked_write_off_path]), hence in every
    container that was built without passing maps as values
    ([ranked_invariant]). *)
Theorem set_get_has c h K k v r h' :
  container_ok c h →
  write_off_path h (_internalMap c) K k →
  MultiLevelMap.set c (K ++ [k; v]) h = Ret r h' →
  MultiLevelMap.get c (K ++ [k]) h' = Ret v h'
  ∧ MultiLevelMap.has c (K ++ [k]) h' = Ret true h'.
Proof.
  intros Hc Hoff Hset.
  destruct (set_inv c h K k v Hc) as [(e & He & _)|(M & h1 & HM & _ & Hpost)];
    [congruence|].
  rewrite HM in Hset. injection Hset as <- <-.
  destruct Hc as [Hroot _].
  destruct (write_keeps_path K _ h M h1 k v Hroot Hpost Hoff) as [_ Hres].
  destruct Hpost as (_ & HMlt & _).
  rewrite get_path, has_path, Hres.
  by rewrite map_get_set_eq, map_has_set_eq.
Qed.

Lemma set_get_has_witness :
  let c := {| _internalMap := 0 |} in
  let h' := [[(VStr "x", VMap 1)]; [(VStr "y", VNum 7)]] in
  MultiLevelMap.get c ([VStr "x"] ++ [VStr "y"]) h' = Ret (VNum 7) h'
  ∧ MultiLevelMap.has c ([VStr "x"] ++ [VStr "y"]) h' = Ret true h'.
Proof.
  intros c h'.
  apply (set_get_has c [[(VStr "x", VMap 1)]; [(VStr "y", VNum 0)]]
           [VStr "x"] (VStr "y") (VNum 7) (VMap 1) h').
  - solve_ok.
  - intros M HM. injection HM as <-. simpl.
    intros Hin. apply list_elem_of_singleton in Hin. discriminate Hin.
  - reflexivity.
Defined.

(** ** C3: the maps that [set] creates *)

(** C3, as stated, fails when a map contains itself: in the run above
    [c.set('s', 's', 5)] returns, and afterwards [c.isMap('s')] is [false],
    because the write replaced the entry that held the map. *)
Lemma set_isMap_self_nested :
  let c := {| _internalMap := 0 |} in
  let h := [[(VStr "a", VNum 1); (VStr "s", VMap 0)]] in
  let h' := [[(VStr "a", VNum 1); (VStr "s", VNum 5)]] in
  run self_nested = Ret c h ∧ container_ok c h
  ∧ MultiLevelMap.set c [VStr "s"; VStr "s"; VNum 5] h = Ret (VMap 0) h'
  ∧ MultiLevelMap.isMap c [VStr "s"] h' = Ret false h'
  ∧ MultiLevelMap.isMap c [VStr "s"] h' ≠ Ret true h'.
Proof.
  split_and!; try reflexivity; try solve_ok; vm_compute; discriminate.
Qed.

(** C3 (amended): on a container without dangling references, let
    [set(...K, k, v)] return with the write off the path, and let [j] be the
    number of leading keys of [K] that led through maps before the call.
    Afterwards [isMap] is [true] for every non-empty prefix of [K]; before
    the call it was [true] exactly for the prefixes of length at most [j];
    those resolve to the same maps as before; each longer prefix resolves to
    a map of its own that did not exist before (the new locations, in
    order); and the number of maps in the store grew by exactly the number
    of these missing prefixes. *)
Theorem set_creates_missing_prefixes c h K k v r h' :
  container_ok c h →
  write_off_path h (_internalMap c) K k →
  MultiLevelMap.set c (K ++ [k; v]) h = Ret r h' →
  let j := length (walk h (_internalMap c) K) in
  (∀ i, i < length K →
        MultiLevelMap.isMap c (take (S i) (K ++ [k])) h' = Ret true h')
  ∧ (∀ i, i < length K →
          MultiLevelMap.isMap c (take (S i) (K ++ [k])) h
          = Ret (bool_decide (i < j)) h)
  ∧ (∀ i, i < j →
          resolve h' (_internalMap c) (take (S i) K)
          = resolve h (_internalMap c) (take (S i) K))
  ∧ (∀ i, j ≤ i < length K →
          resolve h' (_internalMap c) (take (S i) K) = Some (length h + (i - j)))
  ∧ length h' = length h + (length K - j).
Proof.
  intros Hc Hoff Hset j.
  destruct (set_inv c h K k v Hc) as [(e & He & _)|(M & h1 & HM & _ & Hpost)];
    [congruence|].
  rewrite HM in Hset. injection Hset as <- <-.
  destruct Hc as [Hroot _].
  destruct (write_keeps_path K _ h M h1 k v Hroot Hpost Hoff) as [Hwalk' _].
  destruct Hpost as (_ & _ & Hlen & _ & Hwalk & Hfull & _).
  set (root := _internalMap c) in *.
  assert (length h1 - length h = length K - j) as Hcount.
  { rewrite Hwalk, length_app, length_seq in Hfull. fold j in Hfull. lia. }
  assert (∀ i, i < length K →
    resolve (map_set h1 M k v) root (take (S i) K)
    = (walk h root K ++ seq (length h) (length K - j)) !! i) as Hafter.
  { intros i Hi. rewrite resolve_prefix by done. by rewrite Hwalk', Hwalk, Hcount. }
  split_and!.
  - intros i Hi. rewrite isMap_path, take_app_le by lia. fold root.
    rewrite Hafter by done.
    destruct (lookup_lt_is_Some_2 (walk h root K ++ seq (length h) (length K - j)) i)
      as [x ->]; [|done].
    rewrite length_app, length_seq. fold j. lia.
  - intros i Hi. rewrite isMap_path, take_app_le by lia. fold root.
    rewrite resolve_prefix by done. case_bool_decide as Hij.
    + by destruct (lookup_lt_is_Some_2 (walk h root K) i Hij) as [x ->].
    + rewrite lookup_ge_None_2; [done|]. fold j. lia.
  - intros i Hi. rewrite Hafter by (pose proof (walk_length h root K); lia).
    rewrite resolve_prefix by (pose proof (walk_length h root K); lia).
    by rewrite lookup_app_l.
  - intros i [Hji Hi]. rewrite Hafter by done.
    rewrite lookup_app_r by done. fold j. apply lookup_seq_lt. lia.
  - unfold map_set. rewrite length_insert. lia.
Qed.

Lemma set_creates_missing_prefixes_witness :
  let c := {| _internalMap := 0 |} in
  let h := [[(VStr "a", VMap 1)]; []] in
  let K := [VStr "a"; VStr "b"; VStr "c"] in
  ∃ h', MultiLevelMap.set c (K ++ [VStr "d"; VNum 1]) h = Ret (VMap 3) h'
    ∧ MultiLevelMap.isMap c [VStr "a"; VStr "b"; VStr "c"] h' = Ret true h'
    ∧ MultiLevelMap.isMap c [VStr "a"; VStr "b"] h = Ret false h
    ∧ resolve h' 0 [VStr "a"] = Some 1
    ∧ resolve h' 0 [VStr "a"; VStr "b"; VStr "c"] = Some 3
    ∧ length h' = 4.
Proof.
  intros c h K. eexists. split; [by vm_compute|].
  match goal with |- context [MultiLevelMap.isMap c _ ?h'] =>
    destruct (set_creates_missing_prefixes c h K (VStr "d") (VNum 1) (VMap 3) h')
      as (Hafter & Hbefore & Hold & Hnew & Hlen)
  end.
  - solve_ok.
  - intros M HM. vm_compute in HM. discriminate HM.
  - reflexivity.
  - split_and!.
    + apply (Hafter 2). simpl. lia.
    + apply (Hbefore 1). simpl. lia.
    + apply (Hold 0). simpl. lia.
    + apply (Hnew 2). simpl. lia.
    + exact Hlen.
Defined.

(** ** C2: a value in the way *)

(** What [set] throws, and what it leaves: with fewer than two parameters
    the error is about the arguments; otherwise it comes out of the search,
    the store is as before, and the key named by the error holds a value
    that is not a map, in the map that the keys before it lead to. *)
Lemma set_throw_inv c h params e h' :
  container_ok c h →
  MultiLevelMap.set c params h = Throw e h' →
  h' = h
  ∧ (ConflictError e →
     ∃ key i M,
       message_ok key (take (length params - 2) params) = true
       ∧ e = ErrorChildMap key (take (length params - 2) params)
       ∧ take (length params - 2) params !! i = Some key
       ∧ resolve h (_internalMap c) (take i (take (length params - 2) params)) = Some M
       ∧ map_has h M key = true
       ∧ instanceof_Map (map_get h M key) = None).
Proof.
  intros Hc Hset.
  destruct params as [|x [|y params]].
  { injection Hset as <- <-. by split. }
  { injection Hset as <- <-. by split. }
  destruct (params_inv (x :: y :: params)) as (K & k & v & HK); [simpl; lia|].
  rewrite HK in *. clear HK x y params.
  rewrite length_app. simpl.
  replace (length K + 2 - 2) with (length K) by lia. rewrite take_app_length.
  destruct (set_inv c h K k v Hc) as [(e' & He & Hfind)|(M & h1 & HM & _)];
    [|congruence].
  rewrite He in Hset. injection Hset as <- <-. split; [done|]. intros Hconf.
  destruct Hc as [Hroot Hok].
  destruct (find_create_throw _ _ _ _ _ _ Hok Hroot Hfind)
    as (_ & i & key & M & He' & Hi & Hres & Hhas & Hleaf).
  destruct (conflict_error_kind _ _ _ He' Hconf) as [-> Hmsg].
  by exists key, i, M.
Qed.

(** C2 fails in the run [const k = Symbol(); c.set(k, 1);
    c.set(k, 'k2', 2)].  The value [1] under [k] is in the way of a child
    map and the search goes on to throw its error, but the message is built
    first, and [`${key}`] throws a [TypeError] on a Symbol.  The call ends
    with that [TypeError], which is not the error about a child map; the
    store is as before and [get(k)] is still [1]. *)
Theorem set_conflict_symbol_key :
  let k := VSymbol 0 in
  let c := {| _internalMap := 0 |} in
  let h1 := [[(k, VNum 1)]] in
  run (c ← MultiLevelMap.constructor;
       _ ← MultiLevelMap.set c [k; VNum 1];
       mret c) = Ret c h1
  ∧ MultiLevelMap.set c [k; VStr "k2"; VNum 2] h1 = Throw BuiltinTypeError h1
  ∧ (∀ e, MultiLevelMap.set c [k; VStr "k2"; VNum 2] h1 = Throw e h1 →
          ¬ ConflictError e)
  ∧ MultiLevelMap.get c [k] h1 = Ret (VNum 1) h1.
Proof.
  intros k c h1. split_and!; try reflexivity.
  intros e He. vm_compute in He. injection He as <-. intros [].
Qed.

(** ** C7: what the error carries *)

(** C7, as stated, fails: after [c.set('a', 1)], the call
    [c.set('a', 'b', 'c', 2)] throws with the key ['a'] and the array
    [['a', 'b']], which lacks the last key ['c'] of the path that the
    caller passed. *)
Lemma conflict_error_lacks_last_key :
  let c := {| _internalMap := 0 |} in
  let h := [[(VStr "a", VNum 1)]] in
  run leaf_setup = Ret c h
  ∧ MultiLevelMap.set c [VStr "a"; VStr "b"; VStr "c"; VNum 2] h
    = Throw (ErrorChildMap (VStr "a") [VStr "a"; VStr "b"]) h
  ∧ [VStr "a"; VStr "b"] ≠ [VStr "a"; VStr "b"; VStr "c"].
Proof.
  split_and!; try reflexivity. discriminate.
Qed.

(** C7 (amended): on a container without dangling references, every error
    about a child map that [set] throws carries the key in the way and the
    keys that the search was called with: all parameters except the last
    two, that is the keys that the caller passed without the last one.  The
    key in the way is one of them, the keys before it lead to a map, and in
    that map it holds a value that is not a map. *)
Theorem conflict_error_payload c h params e h' :
  container_ok c h →
  MultiLevelMap.set c params h = Throw e h' →
  ConflictError e →
  ∃ key i M,
    e = ErrorChildMap key (take (length params - 2) params)
    ∧ take (length params - 2) params !! i = Some key
    ∧ resolve h (_internalMap c) (take i (take (length params - 2) params)) = Some M
    ∧ map_has h M key = true
    ∧ instanceof_Map (map_get h M key) = None.
Proof.
  intros Hc Hset Hconf.
  destruct (set_throw_inv c h params e h' Hc Hset) as [_ Hinv].
  destruct (Hinv Hconf) as (key & i & M & _ & Hrest). by exists key, i, M.
Qed.

Lemma conflict_error_payload_witness :
  let c := {| _internalMap := 0 |} in
  let h := [[(VStr "a", VNum 1)]] in
  let params := [VStr "a"; VStr "b"; VStr "c"; VNum 2] in
  ∃ key i M,
    ErrorChildMap (VStr "a") [VStr "a"; VStr "b"]
    = ErrorChildMap key (take (length params - 2) params)
    ∧ take (length params - 2) params !! i = Some key
    ∧ resolve h (_internalMap c) (take i (take (length params - 2) params)) = Some M
    ∧ map_has h M key = true
    ∧ instanceof_Map (map_get h M key) = None.
Proof.
  intros c h params.
  apply (conflict_error_payload c h params
           (ErrorChildMap (VStr "a") [VStr "a"; VStr "b"]) h).
  - solve_ok.
  - reflexivity.
  - exact I.
Defined.

(** ** C8: what [set] returns *)

(** C8: on a container without dangling references, a [set] that returns
    has got a key [k] and a value [v] after the keys [K], and returns the
    map [M] that the search with [create] along [K] ends in; the write of
    [v] under [k] went to that map, on top of what the search left, and [k]
    now holds [v] there.  With two parameters ([K] empty) [M] is the root
    map and the search changed nothing. *)
Theorem set_returns_written_map c h params r h' :
  container_ok c h →
  MultiLevelMap.set c params h = Ret r h' →
  ∃ K k v M h1,
    params = K ++ [k; v]
    ∧ r = VMap M
    ∧ s_FIND_CHILD_MAP K (_internalMap c) true h = Ret (Some M) h1
    ∧ resolve h1 (_internalMap c) K = Some M
    ∧ h' = map_set h1 M k v
    ∧ map_get h' M k = v
    ∧ (K = [] → M = _internalMap c ∧ h1 = h).
Proof.
  intros Hc Hset.
  destruct params as [|x [|y params]]; [done|done|].
  destruct (params_inv (x :: y :: params)) as (K & k & v & HK); [simpl; lia|].
  rewrite HK in *. clear HK x y params.
  destruct (set_inv c h K k v Hc) as [(e' & He & _)|(M & h1 & HM & Hfind & Hpost)];
    [congruence|].
  rewrite HM in Hset. injection Hset as <- <-.
  exists K, k, v, M, h1. split_and!; try done.
  - by eapply create_post_resolve.
  - destruct Hpost as (_ & HMlt & _). by apply map_get_set_eq.
  - intros ->. by injection Hfind as <- <-.
Qed.

Lemma set_returns_written_map_witness :
  let c := {| _internalMap := 0 |} in
  let h' := [[(VStr "x", VMap 1)]; [(VStr "y", VNum 1)]] in
  ∃ K k v M h1,
    [VStr "x"; VStr "y"; VNum 1] = K ++ [k; v]
    ∧ VMap 1 = VMap M
    ∧ s_FIND_CHILD_MAP K (_internalMap c) true [[]] = Ret (Some M) h1
    ∧ resolve h1 (_internalMap c) K = Some M
    ∧ h' = map_set h1 M k v
    ∧ map_get h' M k = v
    ∧ (K = [] → M = _internalMap c ∧ h1 = [[]]).
Proof.
  intros c h'.
  apply (set_returns_written_map c [[]] [VStr "x"; VStr "y"; VNum 1] (VMap 1) h').
  - solve_ok.
  - reflexivity.
Defined.

(** ** C4: [clear] with the key of a value that is not a map *)

(** C4, as stated, fails: after [c.set('a', 1); c.set('b', 'c', 2)] the call
    [c.clear('a')] finds no map under ['a'] and does nothing, so
    [c.has('a')] is still [true]. *)
Lemma clear_leaf_keeps_entry :
  let c := {| _internalMap := 0 |} in
  let h := [[(VStr "a", VNum 1); (VStr "b", VMap 1)]; [(VStr "c", VNum 2)]] in
  run scoped_clear_setup = Ret c h
  ∧ MultiLevelMap.clear c [VStr "a"] h = Ret tt h
  ∧ MultiLevelMap.has c [VStr "a"] h = Ret true h
  ∧ MultiLevelMap.has c [VStr "a"] h ≠ Ret false h.
Proof.
  split_and!; try reflexivity; vm_compute; discriminate.
Qed.

(** C4 (amended): on a fresh container, after [set('a', 1)] and
    [set('b', 'c', 2)], the call [clear('a')] returns and changes nothing,
    since ['a'] holds a value that is not a map: afterwards [has('a')] and
    [has('b', 'c')] are both [true]. *)
Theorem scoped_clear_leaf_noop :
  let c := {| _internalMap := 0 |} in
  let h := [[(VStr "a", VNum 1); (VStr "b", VMap 1)]; [(VStr "c", VNum 2)]] in
  run scoped_clear_setup = Ret c h
  ∧ MultiLevelMap.clear c [VStr "a"] h = Ret tt h
  ∧ MultiLevelMap.has c [VStr "a"] h = Ret true h
  ∧ MultiLevelMap.has c [VStr "b"; VStr "c"] h = Ret true h.
Proof. split_and!; reflexivity. Qed.

(** ** C5: which calls throw *)

Section errors.
Implicit Types (c : MultiLevelMap) (h : heap) (keys : list val).

Lemma delete_throws c keys h e h' :
  MultiLevelMap.delete c keys h = Throw e h' →
  keys = [] ∧ e = ErrorMessage "delete - no keys specified.".
Proof.
  destruct keys as [|k0 keys]; [by intros [= <- <-]|].
  destruct (keys_inv (k0 :: keys)) as (K & k & ->); [done|].
  rewrite delete_path. by destruct (resolve h (_internalMap c) K).
Qed.

Lemma get_throws c keys h e h' :
  MultiLevelMap.get c keys h = Throw e h' →
  keys = [] ∧ e = ErrorMessage "get - no keys specified.".
Proof.
  destruct keys as [|k0 keys]; [by intros [= <- <-]|].
  destruct (keys_inv (k0 :: keys)) as (K & k & ->); [done|].
  by rewrite get_path.
Qed.

Lemma has_throws c keys h e h' :
  MultiLevelMap.has c keys h = Throw e h' →
  keys = [] ∧ e = ErrorMessage "has - no keys specified.".
Proof.
  destruct keys as [|k0 keys]; [by intros [= <- <-]|].
  destruct (keys_inv (k0 :: keys)) as (K & k & ->); [done|].
  by rewrite has_path.
Qed.

Lemma throws_iff {A} (o : outcome A) : throws o ↔ ∃ e h', o = Throw e h'.
Proof.
  destruct o as [a h1|e h1]; simpl; split; try done.
  - by intros (? & ? & ?).
  - by exists e, h1.
Qed.

(** [set] throws the error about the arguments exactly below two
    parameters. *)
Lemma set_throws_ArgumentError c keys h :
  (∃ e h', MultiLevelMap.set c keys h = Throw e h' ∧ ArgumentError e)
  ↔ length keys < 2.
Proof.
  split.
  - intros (e & h' & Hset & Harg).
    destruct keys as [|x [|y keys]]; [simpl; lia|simpl; lia|exfalso].
    destruct (params_inv (x :: y :: keys)) as (K & k & v & HK); [simpl; lia|].
    rewrite HK, set_path in Hset. unfold s_FIND_CHILD_MAP in Hset.
    destruct (s_FIND_CHILD_MAP_loop K K (_internalMap c) true h)
      as [[M|] h1|e1 h1] eqn:Hrun; try done.
    injection Hset as <- <-.
    destruct (find_throw_kind _ _ _ _ _ _ _ Hrun) as [key ->].
    by apply conflict_error_not_argument in Harg.
  - intros Hlen. destruct keys as [|x [|y keys]]; [| |simpl in Hlen; lia].
    + by eexists _, _.
    + by eexists _, _.
Qed.

End errors.

(** C5: [delete], [get] and [has] throw exactly when called without keys,
    and what they throw is the error about the arguments; [set] throws the
    error about the arguments exactly when it has fewer than two
    parameters; [clear], [isMap], [keys], [values], [entries] and [size]
    always return.  When the keys do not lead to a map, [clear] changes
    nothing, [isMap] is [false], [size] is [0], [keys], [values] and
    [entries] give the empty iterator, whose [next] is done at once, and
    [delete] (with a last key after them) is [false] and changes nothing. *)
Theorem errors_only_for_missing_arguments c h keys :
  (throws (MultiLevelMap.delete c keys h) ↔ keys = [])
  ∧ (throws (MultiLevelMap.get c keys h) ↔ keys = [])
  ∧ (throws (MultiLevelMap.has c keys h) ↔ keys = [])
  ∧ (∀ e h', MultiLevelMap.delete c keys h = Throw e h'
             ∨ MultiLevelMap.get c keys h = Throw e h'
             ∨ MultiLevelMap.has c keys h = Throw e h' → ArgumentError e)
  ∧ ((∃ e h', MultiLevelMap.set c keys h = Throw e h' ∧ ArgumentError e)
     ↔ length keys < 2)
  ∧ returns (MultiLevelMap.clear c keys h)
  ∧ returns (MultiLevelMap.isMap c keys h)
  ∧ returns (MultiLevelMap.keys c keys h)
  ∧ returns (MultiLevelMap.values c keys h)
  ∧ returns (MultiLevelMap.entries c keys h)
  ∧ returns (MultiLevelMap.size c keys h)
  ∧ (resolve h (_internalMap c) keys = None →
     MultiLevelMap.clear c keys h = Ret tt h
     ∧ MultiLevelMap.isMap c keys h = Ret false h
     ∧ MultiLevelMap.size c keys h = Ret 0 h
     ∧ MultiLevelMap.keys c keys h = Ret s_EMPTY_ITERATOR h
     ∧ MultiLevelMap.values c keys h = Ret s_EMPTY_ITERATOR h
     ∧ MultiLevelMap.entries c keys h = Ret s_EMPTY_ITERATOR h)
  ∧ (∀ k, resolve h (_internalMap c) keys = None →
          MultiLevelMap.delete c (keys ++ [k]) h = Ret false h)
  ∧ (∀ h0, iterator_next s_EMPTY_ITERATOR h0 = Ret (None, s_EMPTY_ITERATOR) h0).
Proof.
  split_and!.
  - rewrite throws_iff. split.
    + by intros (e & h' & [-> _]%delete_throws).
    + intros ->. by eexists _, _.
  - rewrite throws_iff. split.
    + by intros (e & h' & [-> _]%get_throws).
    + intros ->. by eexists _, _.
  - rewrite throws_iff. split.
    + by intros (e & h' & [-> _]%has_throws).
    + intros ->. by eexists _, _.
  - by intros e h' [[_ ->]%delete_throws|[[_ ->]%get_throws|[_ ->]%has_throws]].
  - apply set_throws_ArgumentError.
  - by rewrite clear_path.
  - by rewrite isMap_path.
  - by rewrite keys_path.
  - by rewrite values_path.
  - by rewrite entries_path.
  - by rewrite size_path.
  - intros Hnone.
    by rewrite clear_path, isMap_path, size_path, keys_path, values_path,
      entries_path, Hnone.
  - intros k Hnone. by rewrite delete_path, Hnone.
  - done.
Qed.

(** ** C6: [delete] keeps the maps on the way *)

Section delete_facts.
Implicit Types (c : MultiLevelMap) (h : heap) (l M : loc) (k : val)
  (K : list val).

(** Removing an entry can cut a path, but cannot lead it elsewhere. *)
Lemma resolve_delete h M k l K M' :
  resolve (map_delete h M k) l K = Some M' → resolve h l K = Some M'.
Proof.
  revert l. induction K as [|k0 K IH]; intros l; simpl; [done|].
  destruct (decide ((M, k) = (l, k0))) as [[= <- <-]|Hne].
  - by rewrite map_get_delete_eq.
  - rewrite map_get_delete_ne by done.
    destruct (instanceof_Map (map_get h l k0)); [apply IH|done].
Qed.

Lemma map_data_delete_ne h M k l :
  l ≠ M → map_data (map_delete h M k) l = map_data h l.
Proof. intros Hne. unfold map_delete. by rewrite map_data_insert_ne. Qed.

Lemma map_data_delete_other h M k k' :
  k' ≠ k →
  MapData.get k' (map_data (map_delete h M k) M) = MapData.get k' (map_data h M).
Proof.
  intros Hne. unfold map_delete.
  destruct (decide (M < length h)) as [Hlt|Hge].
  - rewrite map_data_insert_eq by done. by apply MapData_get_delete_ne.
  - by rewrite list_insert_ge by lia.
Qed.

End delete_facts.

(** C6, as stated, fails when a map contains itself: in the run where the
    root is stored in itself under ['s'], [isMap('s')] is [true] and the
    call [c.delete('s', 's')] returns [true]; the entry that it removes is
    the one that made ['s'] a map, so afterwards [isMap('s')] is [false]:
    the intermediate map is no longer there. *)
Lemma delete_self_nested :
  let c := {| _internalMap := 0 |} in
  let h := [[(VStr "a", VNum 1); (VStr "s", VMap 0)]] in
  let h' := [[(VStr "a", VNum 1)]] in
  run self_nested = Ret c h
  ∧ MultiLevelMap.isMap c [VStr "s"] h = Ret true h
  ∧ MultiLevelMap.delete c [VStr "s"; VStr "s"] h = Ret true h'
  ∧ MultiLevelMap.has c [VStr "s"; VStr "s"] h' = Ret false h'
  ∧ MultiLevelMap.isMap c [VStr "s"] h' = Ret false h'
  ∧ MultiLevelMap.isMap c [VStr "s"] h' ≠ Ret true h'.
Proof.
  split_and!; try reflexivity; vm_compute; discriminate.
Qed.

(** C6 (amended): in the run [c.set('x', 'y', 1); c.delete('x', 'y')] the
    call returns [true], afterwards [has('x', 'y')] is [false], and the map
    under ['x'] is still there, empty: [isMap('x')] is [true] and
    [size('x')] is [0].  In general [delete(...K, k)] removes nothing but
    the entry [k] of the map that [K] leads to: it returns whether that
    entry was there, afterwards [has(...K, k)] is [false], the store holds
    the same maps, every other map has the entries it had, and so has that
    map under its other keys; and when the entry removed is not itself one
    that is read while [K] is resolved, which it can only be when a map is
    reachable from itself, [K] leads to the same map as before and
    [isMap(...K)] is [true]. *)
Theorem delete_keeps_intermediate_maps :
  (let c := {| _internalMap := 0 |} in
   let h := [[(VStr "x", VMap 1)]; [(VStr "y", VNum 1)]] in
   let h' := [[(VStr "x", VMap 1)]; []] in
   run nested_setup = Ret c h
   ∧ MultiLevelMap.delete c [VStr "x"; VStr "y"] h = Ret true h'
   ∧ MultiLevelMap.has c [VStr "x"; VStr "y"] h' = Ret false h'
   ∧ MultiLevelMap.isMap c [VStr "x"] h' = Ret true h'
   ∧ MultiLevelMap.size c [VStr "x"] h' = Ret 0 h')
  ∧ (∀ c h K k b h',
       MultiLevelMap.delete c (K ++ [k]) h = Ret b h' →
       MultiLevelMap.has c (K ++ [k]) h' = Ret false h'
       ∧ length h' = length h
       ∧ match resolve h (_internalMap c) K with
         | Some M =>
             b = map_has h M k
             ∧ h' = map_delete h M k
             ∧ (∀ l, l ≠ M → map_data h' l = map_data h l)
             ∧ (∀ k', k' ≠ k →
                  MapData.get k' (map_data h' M) = MapData.get k' (map_data h M))
             ∧ ((M, k) ∉ slots h (_internalMap c) K →
                resolve h' (_internalMap c) K = Some M
                ∧ MultiLevelMap.isMap c K h' = Ret true h')
         | None => b = false ∧ h' = h
         end).
Proof.
  split.
  { split_and!; reflexivity. }
  intros c h K k b h' Hdel. rewrite delete_path in Hdel.
  destruct (resolve h (_internalMap c) K) as [M|] eqn:Hres.
  - injection Hdel as <- <-. split_and!; try done.
    + rewrite has_path.
      destruct (resolve (map_delete h M k) (_internalMap c) K) as [M'|] eqn:Hres';
        [|done].
      apply resolve_delete in Hres'. rewrite Hres in Hres'.
      injection Hres' as <-. by rewrite map_has_delete_eq.
    + unfold map_delete. by rewrite length_insert.
    + intros l Hne. by apply map_data_delete_ne.
    + intros k' Hne. by apply map_data_delete_other.
    + intros Hoff.
      destruct (path_ext h (map_delete h M k) (_internalMap c) K) as (_ & Hr & _).
      { intros [l' k'] Hs. simpl. apply map_get_delete_ne. by intros [= <- <-]. }
      rewrite isMap_path, Hr, Hres. done.
  - injection Hdel as <- <-. split_and!; try done.
    by rewrite has_path, Hres.
Qed.

Lemma delete_keeps_intermediate_maps_witness :
  let c := {| _internalMap := 0 |} in
  let h := [[(VStr "x", VMap 1)]; [(VStr "y", VNum 1)]] in
  let h' := [[(VStr "x", VMap 1)]; []] in
  MultiLevelMap.delete c [VStr "x"; VStr "y"] h = Ret true h'
  ∧ ((1, VStr "y") ∉ slots h (_internalMap c) [VStr "x"])
  ∧ resolve h' (_internalMap c) [VStr "x"] = Some 1
  ∧ MultiLevelMap.isMap c [VStr "x"] h' = Ret true h'.
Proof.
  intros c h h'.
  assert (MultiLevelMap.delete c ([VStr "x"] ++ [VStr "y"]) h = Ret true h')
    as Hdel by reflexivity.
  assert ((1, VStr "y") ∉ slots h (_internalMap c) [VStr "x"]) as Hoff.
  { simpl. intros Hin. apply list_elem_of_singleton in Hin. discriminate. }
  destruct (proj2 delete_keeps_intermediate_maps c h [VStr "x"] (VStr "y")
              true h' Hdel) as (_ & _ & Hgen).
  change (resolve h (_internalMap c) [VStr "x"]) with (Some 1) in Hgen.
  destruct Hgen as (_ & _ & _ & _ & Hkeep).
  split; [exact Hdel|]. split; [exact Hoff|]. exact (Hkeep Hoff).
Defined.

(** ** C9: a map passed as the value *)

(** C9: when [set(k, m)] has stored a map [m] of the store under [k] in the
    root, [isMap(k)] is [true], and [set(k, k2, v)] returns [m] without
    throwing, having written [v] under [k2] in [m] and nothing else. *)
Theorem set_map_value_is_level c h k m r h1 :
  _internalMap c < length h → m < length h →
  MultiLevelMap.set c [k; VMap m] h = Ret r h1 →
  MultiLevelMap.isMap c [k] h1 = Ret true h1
  ∧ ∀ k2 v,
      MultiLevelMap.set c [k; k2; v] h1 = Ret (VMap m) (map_set h1 m k2 v)
      ∧ map_get (map_set h1 m k2 v) m k2 = v.
Proof.
  intros Hroot Hm Hset. injection Hset as <- <-.
  change (at_index [k; VMap m] 0) with k.
  change (at_index [k; VMap m] 1) with (VMap m).
  assert (map_get (map_set h (_internalMap c) k (VMap m)) (_internalMap c) k = VMap m)
    as Hget by (by apply map_get_set_eq).
  split.
  - rewrite isMap_path. simpl. by rewrite Hget.
  - intros k2 v. split.
    + change [k; k2; v] with ([k] ++ [k2; v]). rewrite set_path.
      unfold s_FIND_CHILD_MAP. rewrite find_create_step. by rewrite Hget.
    + apply map_get_set_eq. unfold map_set. by rewrite length_insert.
Qed.

Lemma set_map_value_is_level_witness :
  let c := {| _internalMap := 0 |} in
  let h1 := [[(VStr "k", VMap 1)]; []] in
  MultiLevelMap.isMap c [VStr "k"] h1 = Ret true h1
  ∧ ∀ k2 v,
      MultiLevelMap.set c [VStr "k"; k2; v] h1 = Ret (VMap 1) (map_set h1 1 k2 v)
      ∧ map_get (map_set h1 1 k2 v) 1 k2 = v.
Proof.
  intros c h1.
  apply (set_map_value_is_level c [[]; []] (VStr "k") 1 (VMap 0) h1).
  - simpl. lia.
  - simpl. lia.
  - reflexivity.
Defined.

(** ** C10: [clear] with the keys of a map *)

(** C10, as stated, fails when a map contains itself: in the run where the
    root is stored in itself under ['s'], [isMap('s')] is [true], the call
    [c.clear('s')] empties the root, and afterwards [isMap('s')] is
    [false]: the map is no longer present at its key. *)
Lemma clear_self_nested :
  let c := {| _internalMap := 0 |} in
  let h := [[(VStr "a", VNum 1); (VStr "s", VMap 0)]] in
  let h' := [[]] in
  run self_nested = Ret c h
  ∧ MultiLevelMap.isMap c [VStr "s"] h = Ret true h
  ∧ MultiLevelMap.clear c [VStr "s"] h = Ret tt h'
  ∧ MultiLevelMap.isMap c [VStr "s"] h' = Ret false h'
  ∧ MultiLevelMap.isMap c [VStr "s"] h' ≠ Ret true h'.
Proof.
  split_and!; try reflexivity; vm_compute; discriminate.
Qed.

(** C10 (amended): when the keys [P] lead to a map [M] that is not one of
    the maps read on the way to it, [clear(...P)] returns and empties [M]
    only: afterwards [P] still leads to [M], [isMap(...P)] is [true],
    [size(...P)] is [0], the store holds the same maps, and every map other
    than [M] has exactly the entries it had.  In a ranked store the map
    reached is never one of the maps read on the way ([ranked_off_walk]). *)
Theorem clear_nested_map c h P M :
  resolve h (_internalMap c) P = Some M →
  M ∉ (slots h (_internalMap c) P).*1 →
  let h' := map_clear h M in
  MultiLevelMap.clear c P h = Ret tt h'
  ∧ resolve h' (_internalMap c) P = Some M
  ∧ MultiLevelMap.isMap c P h' = Ret true h'
  ∧ MultiLevelMap.size c P h' = Ret 0 h'
  ∧ length h' = length h
  ∧ (∀ l, l ≠ M → map_data h' l = map_data h l).
Proof.
  intros Hres Hoff h'.
  assert (resolve h' (_internalMap c) P = Some M) as Hres'.
  { destruct (path_ext h h' (_internalMap c) P) as (_ & Hr & _); [|by rewrite Hr].
    intros [l' k'] Hs. simpl. apply map_get_clear_ne. intros <-.
    apply Hoff. by apply (list_elem_of_fmap_2 fst _ (M, k')). }
  assert (map_data h' M = []) as Hempty.
  { unfold h', map_clear. destruct (decide (M < length h)) as [Hlt|Hge].
    - by rewrite map_data_insert_eq.
    - rewrite list_insert_ge by lia. by rewrite map_data_dangling by lia. }
  split_and!.
  - by rewrite clear_path, Hres.
  - done.
  - by rewrite isMap_path, Hres'.
  - by rewrite size_path, Hres', Hempty.
  - unfold h', map_clear. by rewrite length_insert.
  - intros l Hne. unfold h', map_clear. by rewrite map_data_insert_ne.
Qed.

Lemma clear_nested_map_witness :
  let c := {| _internalMap := 0 |} in
  let h := [[(VStr "a", VNum 1); (VStr "b", VMap 1)]; [(VStr "c", VNum 2)]] in
  let h' := map_clear h 1 in
  MultiLevelMap.clear c [VStr "b"] h = Ret tt h'
  ∧ resolve h' (_internalMap c) [VStr "b"] = Some 1
  ∧ MultiLevelMap.isMap c [VStr "b"] h' = Ret true h'
  ∧ MultiLevelMap.size c [VStr "b"] h' = Ret 0 h'
  ∧ length h' = length h
  ∧ (∀ l, l ≠ 1 → map_data h' l = map_data h l).
Proof.
  intros c h.
  apply (clear_nested_map c h [VStr "b"] 1).
  - reflexivity.
  - simpl. intros Hin. apply list_elem_of_singleton in Hin. discriminate Hin.
Defined.

(** * Further properties of [MultiLevelMap] *)

Section more_path_facts.
Implicit Types (c : MultiLevelMap) (h : heap) (l M : loc) (k v : val)
  (K Q keys rest : list val).

Lemma resolve_app h l K Q :
  resolve h l (K ++ Q) =
    match resolve h l K with
    | Some M => resolve h M Q
    | None => None
    end.
Proof.
  revert l. induction K as [|k K IH]; intros l; simpl; [done|].
  by destruct (instanceof_Map (map_get h l k)).
Qed.

Lemma resolve_snoc h l K k :
  resolve h l (K ++ [k]) =
    match resolve h l K with
    | Some M => instanceof_Map (map_get h M k)
    | None => None
    end.
Proof.
  rewrite resolve_app. destruct (resolve h l K) as [M|]; [|done]. simpl.
  by destruct (instanceof_Map (map_get h M k)).
Qed.

(** Below a key that holds no map nothing resolves. *)
Lemma resolve_below_None h l K Q :
  resolve h l K = None → resolve h l (K ++ Q) = None.
Proof. intros Hnone. by rewrite resolve_app, Hnone. Qed.

Lemma map_has_get_undef h l k : map_has h l k = false → map_get h l k = VUndef.
Proof.
  unfold map_has, MapData.has, map_get.
  by destruct (MapData.get k (map_data h l)).
Qed.

Lemma MapData_delete_absent k (m : MapData.t) :
  MapData.get k m = None → MapData.delete k m = m.
Proof.
  induction m as [|[k' v'] m IH]; simpl; [done|].
  destruct (decide (k = k')); [done|]. intros Hk. by rewrite IH.
Qed.

Lemma map_delete_absent h l k : map_has h l k = false → map_delete h l k = h.
Proof.
  intros Hhas. unfold map_delete, map_data.
  destruct (h !! l) as [m|] eqn:Hl; simpl.
  - rewrite MapData_delete_absent; [by apply list_insert_id|].
    unfold map_has, MapData.has, map_data in Hhas. rewrite Hl in Hhas. simpl in Hhas.
    by destruct (MapData.get k m).
  - apply list_insert_ge. by apply lookup_ge_None.
Qed.

Lemma map_data_clear h l : map_data (map_clear h l) l = [].
Proof.
  unfold map_clear. destruct (decide (l < length h)) as [Hlt|Hge].
  - by rewrite map_data_insert_eq.
  - rewrite list_insert_ge by lia. by rewrite map_data_dangling by lia.
Qed.

End more_path_facts.

(** X1: the reading methods never write.  Whatever the keys and the store,
    [get], [has], [isMap], [size], [keys], [values] and [entries] leave the
    store exactly as it was, whether they return or throw: the search is run
    without [create] and creates no map. *)
Theorem reads_leave_store c keys h :
  final_store (MultiLevelMap.get c keys h) = h
  ∧ final_store (MultiLevelMap.has c keys h) = h
  ∧ final_store (MultiLevelMap.isMap c keys h) = h
  ∧ final_store (MultiLevelMap.size c keys h) = h
  ∧ final_store (MultiLevelMap.keys c keys h) = h
  ∧ final_store (MultiLevelMap.values c keys h) = h
  ∧ final_store (MultiLevelMap.entries c keys h) = h.
Proof.
  rewrite isMap_path, size_path, keys_path, values_path, entries_path.
  split_and!; try done.
  - destruct keys as [|k0 keys]; [done|].
    destruct (keys_inv (k0 :: keys)) as (K & k & ->); [done|].
    by rewrite get_path.
  - destruct keys as [|k0 keys]; [done|].
    destruct (keys_inv (k0 :: keys)) as (K & k & ->); [done|].
    by rewrite has_path.
Qed.

(** X2: [clear()] without keys empties the whole container.  It returns, and
    afterwards [size()] is [0] and, for every non-empty key sequence, [has]
    is [false], [get] is [undefined], [isMap] is [false] and [size] is
    [0]. *)
Theorem clear_all_empties c h :
  let h' := map_clear h (_internalMap c) in
  MultiLevelMap.clear c [] h = Ret tt h'
  ∧ MultiLevelMap.size c [] h' = Ret 0 h'
  ∧ ∀ K k,
      MultiLevelMap.has c (K ++ [k]) h' = Ret false h'
      ∧ MultiLevelMap.get c (K ++ [k]) h' = Ret VUndef h'
      ∧ MultiLevelMap.isMap c (K ++ [k]) h' = Ret false h'
      ∧ MultiLevelMap.size c (K ++ [k]) h' = Ret 0 h'.
Proof.
  intros h'.
  assert (map_data h' (_internalMap c) = []) as Hempty by apply map_data_clear.
  assert (∀ k, map_get h' (_internalMap c) k = VUndef) as Hget.
  { intros k. unfold map_get. by rewrite Hempty. }
  assert (∀ K k, resolve h' (_internalMap c) (K ++ [k]) = None) as Hnone.
  { intros [|k0 K] k; simpl; by rewrite Hget. }
  split_and!.
  - done.
  - rewrite size_path. simpl. by rewrite Hempty.
  - intros K k. rewrite has_path, get_path, isMap_path, size_path, Hnone.
    destruct K as [|k1 K _] using rev_ind.
    + simpl. unfold map_has, MapData.has. by rewrite Hget, Hempty.
    + by rewrite Hnone.
Qed.

(** X3: [has], [get] and [isMap] agree.  For every store and every
    non-empty key sequence: when [has] is [false], [get] is [undefined];
    [isMap] is [true] exactly when [get] returns a map, and then [has] is
    [true]; and when [isMap] is [false], nothing is found below these keys:
    with further keys appended, [has] is [false], [get] is [undefined] and
    [isMap] is [false]. *)
Theorem has_get_isMap_agree c h K k :
  (MultiLevelMap.has c (K ++ [k]) h = Ret false h →
   MultiLevelMap.get c (K ++ [k]) h = Ret VUndef h)
  ∧ (MultiLevelMap.isMap c (K ++ [k]) h = Ret true h ↔
     ∃ M, MultiLevelMap.get c (K ++ [k]) h = Ret (VMap M) h)
  ∧ (MultiLevelMap.isMap c (K ++ [k]) h = Ret true h →
     MultiLevelMap.has c (K ++ [k]) h = Ret true h)
  ∧ (MultiLevelMap.isMap c (K ++ [k]) h = Ret false h →
     ∀ Q q,
       MultiLevelMap.has c ((K ++ [k]) ++ Q ++ [q]) h = Ret false h
       ∧ MultiLevelMap.get c ((K ++ [k]) ++ Q ++ [q]) h = Ret VUndef h
       ∧ MultiLevelMap.isMap c ((K ++ [k]) ++ Q ++ [q]) h = Ret false h).
Proof.
  rewrite has_path, get_path, !isMap_path, resolve_snoc.
  destruct (resolve h (_internalMap c) K) as [M|] eqn:Hres.
  - split_and!.
    + intros [= Hhas]. by rewrite (map_has_get_undef _ _ _ Hhas).
    + split.
      * destruct (instanceof_Map (map_get h M k)) as [M'|] eqn:Hget; [|done].
        intros _. exists M'. by rewrite (instanceof_Map_Some _ _ Hget).
      * intros [M' [= ->]]. done.
    + destruct (instanceof_Map (map_get h M k)) as [M'|] eqn:Hget; [|done].
      intros _. by rewrite (map_get_Map_has _ _ _ _ Hget).
    + destruct (instanceof_Map (map_get h M k)) as [M'|] eqn:Hget; [done|].
      intros _ Q q.
      assert (resolve h (_internalMap c) (K ++ [k]) = None) as Hnone
        by (by rewrite resolve_snoc, Hres, Hget).
      rewrite (app_assoc (K ++ [k]) Q [q]).
      rewrite has_path, get_path, isMap_path.
      rewrite <- (app_assoc (K ++ [k]) Q [q]).
      by rewrite !(resolve_below_None _ _ _ _ Hnone).
  - split_and!; try done.
    + split; [done|]. by intros [M' [= ?]].
    + intros _ Q q.
      assert (resolve h (_internalMap c) (K ++ [k]) = None) as Hnone
        by (by rewrite resolve_snoc, Hres).
      rewrite (app_assoc (K ++ [k]) Q [q]).
      rewrite has_path, get_path, isMap_path.
      rewrite <- (app_assoc (K ++ [k]) Q [q]).
      by rewrite !(resolve_below_None _ _ _ _ Hnone).
Qed.

Section more_create_facts.
Implicit Types (c : MultiLevelMap) (h : heap) (l M : loc) (k v : val)
  (K Q keys rest : list val).

(** Keys that already lead to a map are followed without a write. *)
Lemma find_create_resolved keys rest l h M :
  resolve h l rest = Some M →
  s_FIND_CHILD_MAP_loop keys rest l true h = Ret (Some M) h.
Proof.
  revert l. induction rest as [|k rest IH]; intros l; simpl resolve.
  - by intros [= <-].
  - rewrite find_create_step.
    destruct (instanceof_Map (map_get h l k)); [apply IH|done].
Qed.

(** A key that is present without holding a map stops the search. *)
Lemma find_create_conflict keys rest l h i key M :
  rest !! i = Some key → resolve h l (take i rest) = Some M →
  map_has h M key = true → instanceof_Map (map_get h M key) = None →
  s_FIND_CHILD_MAP_loop keys rest l true h = Throw (conflict_error key keys) h.
Proof.
  revert l i. induction rest as [|k rest IH]; intros l i Hi Hres Hhas Hleaf; [done|].
  rewrite find_create_step. destruct i as [|i]; simpl in Hi, Hres.
  - injection Hi as ->. injection Hres as ->. by rewrite Hleaf, Hhas.
  - destruct (instanceof_Map (map_get h l k)) as [l'|]; [|done]. by eapply IH.
Qed.

(** The map that the search with [create] returns is the one the keys led
    to, with the store untouched, or else a new, empty map. *)
Lemma find_create_target keys rest l h M h1 :
  heap_ok h → l < length h →
  s_FIND_CHILD_MAP_loop keys rest l true h = Ret (Some M) h1 →
  match resolve h l rest with
  | Some M0 => M = M0 ∧ h1 = h
  | None => map_data h1 M = []
  end.
Proof.
  revert l h. induction rest as [|k rest IH]; intros l h Hok Hl Hrun.
  { simpl in *. by injection Hrun as <- <-. }
  rewrite find_create_step in Hrun. simpl resolve.
  destruct (instanceof_Map (map_get h l k)) as [l'|] eqn:Hget.
  - apply IH; [done| |done]. by eapply heap_ok_get.
  - destruct (map_has h l k); [done|].
    set (n := length h) in *.
    set (h' := map_set (h ++ [[]]) l k (VMap n)) in *.
    assert (map_data h' n = []) as Hempty.
    { unfold h', map_set. rewrite map_data_insert_ne by lia. apply map_data_new. }
    assert (heap_ok h') as Hok'.
    { apply heap_ok_set; [by apply heap_ok_new|].
      unfold val_ok. simpl. rewrite length_app. simpl. lia. }
    assert (n < length h') as Hn.
    { unfold h', map_set. rewrite length_insert, length_app. simpl. lia. }
    pose proof (IH n h' Hok' Hn Hrun) as Htarget.
    destruct rest as [|k2 rest].
    + simpl in Htarget. by destruct Htarget as [-> ->].
    + simpl in Htarget. unfold map_get in Htarget at 1.
      by rewrite Hempty in Htarget.
Qed.

Lemma resolve_valid h l K M :
  heap_ok h → l < length h → resolve h l K = Some M → M < length h.
Proof.
  intros Hok. revert l. induction K as [|k K IH]; intros l Hl; simpl.
  - by intros [= <-].
  - destruct (instanceof_Map (map_get h l k)) as [l'|] eqn:Hget; [|done].
    apply IH. by eapply heap_ok_get.
Qed.

Lemma MapData_set_length k v (m : MapData.t) :
  length (MapData.set k v m) = if MapData.has k m then length m else S (length m).
Proof.
  unfold MapData.has. induction m as [|[k' v'] m IH]; simpl; [done|].
  destruct (decide (k = k')); simpl; [done|]. rewrite IH.
  by destruct (MapData.get k m).
Qed.


End more_create_facts.

(** X4: what [delete] reports and leaves.  When [delete(...K, k)] returns,
    it returns what [has(...K, k)] returned before the call; afterwards
    [get(...K, k)] is [undefined]; a second [delete(...K, k)] returns
    [false] and changes nothing; and when the first call returned [false],
    it changed nothing either. *)
Theorem delete_reports_and_removes c h K k b h' :
  MultiLevelMap.delete c (K ++ [k]) h = Ret b h' →
  MultiLevelMap.has c (K ++ [k]) h = Ret b h
  ∧ MultiLevelMap.get c (K ++ [k]) h' = Ret VUndef h'
  ∧ MultiLevelMap.delete c (K ++ [k]) h' = Ret false h'
  ∧ (b = false → h' = h).
Proof.
  rewrite delete_path, has_path, get_path, delete_path.
  destruct (resolve h (_internalMap c) K) as [M|] eqn:Hres.
  - intros [= <- <-]. split_and!; [done| | |].
    + destruct (resolve (map_delete h M k) (_internalMap c) K) as [M'|] eqn:Hres';
        [|done].
      apply resolve_delete in Hres'. rewrite Hres in Hres'. injection Hres' as <-.
      by rewrite map_get_delete_eq.
    + destruct (resolve (map_delete h M k) (_internalMap c) K) as [M'|] eqn:Hres';
        [|done].
      apply resolve_delete in Hres'. rewrite Hres in Hres'. injection Hres' as <-.
      rewrite map_has_delete_eq. f_equal. apply map_delete_absent.
      apply map_has_delete_eq.
    + apply map_delete_absent.
  - intros [= <- <-]. by rewrite Hres.
Qed.

Lemma delete_reports_and_removes_witness :
  let c := {| _internalMap := 0 |} in
  let h := [[(VStr "x", VMap 1)]; [(VStr "y", VNum 1)]] in
  let h' := [[(VStr "x", VMap 1)]; []] in
  MultiLevelMap.has c ([VStr "x"] ++ [VStr "y"]) h = Ret true h
  ∧ MultiLevelMap.get c ([VStr "x"] ++ [VStr "y"]) h' = Ret VUndef h'
  ∧ MultiLevelMap.delete c ([VStr "x"] ++ [VStr "y"]) h' = Ret false h'
  ∧ (true = false → h' = h).
Proof.
  intros c h h'.
  apply (delete_reports_and_removes c h [VStr "x"] (VStr "y") true h').
  reflexivity.
Defined.

(** X5: when [set] throws besides for missing arguments.  On a container
    without dangling references, [set(...K, k, v)] throws exactly when some
    non-empty prefix of [K] is present ([has] is [true]) without being a
    map ([isMap] is [false]); what [k] itself holds never matters. *)
Theorem set_throws_iff_prefix_holds_leaf c h K k v :
  container_ok c h →
  (throws (MultiLevelMap.set c (K ++ [k; v]) h) ↔
   ∃ i, i < length K
        ∧ MultiLevelMap.has c (take (S i) K) h = Ret true h
        ∧ MultiLevelMap.isMap c (take (S i) K) h = Ret false h).
Proof.
  intros Hc. split.
  - intros Hthrow.
    destruct (set_inv c h K k v Hc) as [(e & He & Hfind)|(M & h1 & HM & _)];
      [|by rewrite HM in Hthrow].
    destruct Hc as [Hroot Hok].
    destruct (find_create_throw _ _ _ _ _ _ Hok Hroot Hfind)
      as (_ & i & key & M & _ & Hi & Hres & Hhas & Hleaf).
    exists i. split; [by eapply lookup_lt_Some|].
    rewrite (take_S_r _ _ _ Hi), has_path, isMap_path, resolve_snoc, Hres.
    by rewrite Hhas, Hleaf.
  - intros (i & Hi & Hhas & Hmap).
    destruct (lookup_lt_is_Some_2 K i Hi) as [key Hkey].
    rewrite (take_S_r _ _ _ Hkey), has_path in Hhas.
    rewrite (take_S_r _ _ _ Hkey), isMap_path, resolve_snoc in Hmap.
    destruct (resolve h (_internalMap c) (take i K)) as [M|] eqn:Hres; [|done].
    injection Hhas as Hhas.
    destruct (instanceof_Map (map_get h M key)) as [M'|] eqn:Hleaf; [done|].
    rewrite set_path. unfold s_FIND_CHILD_MAP.
    by rewrite (find_create_conflict _ _ _ _ _ _ _ Hkey Hres Hhas Hleaf).
Qed.

Lemma set_throws_iff_prefix_holds_leaf_witness :
  let c := {| _internalMap := 0 |} in
  let h := [[(VStr "a", VNum 1)]] in
  let K := [VStr "a"; VStr "b"] in
  throws (MultiLevelMap.set c (K ++ [VStr "c"; VNum 2]) h) ↔
  ∃ i, i < length K
       ∧ MultiLevelMap.has c (take (S i) K) h = Ret true h
       ∧ MultiLevelMap.isMap c (take (S i) K) h = Ret false h.
Proof.
  intros c h K.
  apply (set_throws_iff_prefix_holds_leaf c h K (VStr "c") (VNum 2)).
  solve_ok.
Defined.

(** X6: [set] replaces a whole level without an error.  On a container
    without dangling references, when [isMap(...K, k)] is [true] and the
    write is off the path, [set(...K, k, v)] with a value [v] that is not a
    map returns, creates no map, and puts [v] in the place of the map:
    afterwards [get(...K, k)] is [v], [isMap(...K, k)] is [false], and
    nothing is found any more below these keys. *)
Theorem set_replaces_nested_level c h K k v :
  container_ok c h →
  write_off_path h (_internalMap c) K k →
  instanceof_Map v = None →
  MultiLevelMap.isMap c (K ++ [k]) h = Ret true h →
  ∃ M, let h' := map_set h M k v in
    MultiLevelMap.set c (K ++ [k; v]) h = Ret (VMap M) h'
    ∧ length h' = length h
    ∧ MultiLevelMap.get c (K ++ [k]) h' = Ret v h'
    ∧ MultiLevelMap.isMap c (K ++ [k]) h' = Ret false h'
    ∧ ∀ Q q,
        MultiLevelMap.has c ((K ++ [k]) ++ Q ++ [q]) h' = Ret false h'
        ∧ MultiLevelMap.get c ((K ++ [k]) ++ Q ++ [q]) h' = Ret VUndef h'.
Proof.
  intros [Hroot Hok] Hoff Hleaf Hmap.
  rewrite isMap_path, resolve_snoc in Hmap.
  destruct (resolve h (_internalMap c) K) as [M|] eqn:Hres; [|done].
  exists M. intros h'.
  assert (M < length h) as HM by (by eapply resolve_valid).
  assert (resolve h' (_internalMap c) K = Some M) as Hres'.
  { destruct (path_ext h h' (_internalMap c) K) as (_ & Hr & _); [|by rewrite Hr].
    intros [l' k'] Hs. simpl. apply map_get_set_ne. intros [= <- <-].
    by apply (Hoff M). }
  assert (resolve h' (_internalMap c) (K ++ [k]) = None) as Hnone.
  { rewrite resolve_snoc, Hres'. unfold h'. by rewrite map_get_set_eq. }
  split_and!.
  - rewrite set_path. unfold s_FIND_CHILD_MAP.
    by rewrite (find_create_resolved _ _ _ _ _ Hres).
  - unfold h', map_set. by rewrite length_insert.
  - rewrite get_path, Hres'. unfold h'. by rewrite map_get_set_eq.
  - by rewrite isMap_path, Hnone.
  - intros Q q. rewrite (app_assoc (K ++ [k]) Q [q]), has_path, get_path.
    by rewrite (resolve_below_None _ _ _ _ Hnone).
Qed.

Lemma set_replaces_nested_level_witness :
  let c := {| _internalMap := 0 |} in
  let h := [[(VStr "x", VMap 1)]; [(VStr "y", VNum 1)]] in
  ∃ M, let h' := map_set h M (VStr "x") (VNum 2) in
    MultiLevelMap.set c ([] ++ [VStr "x"; VNum 2]) h = Ret (VMap M) h'
    ∧ length h' = length h
    ∧ MultiLevelMap.get c ([] ++ [VStr "x"]) h' = Ret (VNum 2) h'
    ∧ MultiLevelMap.isMap c ([] ++ [VStr "x"]) h' = Ret false h'
    ∧ ∀ Q q,
        MultiLevelMap.has c (([] ++ [VStr "x"]) ++ Q ++ [q]) h' = Ret false h'
        ∧ MultiLevelMap.get c (([] ++ [VStr "x"]) ++ Q ++ [q]) h' = Ret VUndef h'.
Proof.
  intros c h.
  apply (set_replaces_nested_level c h [] (VStr "x") (VNum 2)).
  - solve_ok.
  - intros M HM Hin. by apply elem_of_nil in Hin.
  - reflexivity.
  - reflexivity.
Defined.



(** X8: how [set] changes [size].  On a container without dangling
    references, when [set(...K, k, v)] returns with the write off the path,
    [size(...K)] afterwards is what it was before if [has(...K, k)] was
    [true], and one more if it was [false] (in particular [1] when the map
    under [K] did not exist before). *)
Theorem size_after_set c h K k v r h' :
  container_ok c h →
  write_off_path h (_internalMap c) K k →
  MultiLevelMap.set c (K ++ [k; v]) h = Ret r h' →
  ∃ n b,
    MultiLevelMap.size c K h = Ret n h
    ∧ MultiLevelMap.has c (K ++ [k]) h = Ret b h
    ∧ MultiLevelMap.size c K h' = Ret (if b then n else S n) h'.
Proof.
  intros Hc Hoff Hset.
  destruct (set_inv c h K k v Hc) as [(e & He & _)|(M & h1 & HM & Hfind & Hpost)];
    [congruence|].
  rewrite HM in Hset. injection Hset as <- <-.
  destruct Hc as [Hroot Hok].
  destruct (write_keeps_path K _ h M h1 k v Hroot Hpost Hoff) as [_ Hres].
  pose proof (find_create_target _ _ _ _ _ _ Hok Hroot Hfind) as Htarget.
  destruct Hpost as (_ & HMlt & _).
  rewrite !size_path, has_path, Hres.
  assert (map_data (map_set h1 M k v) M = MapData.set k v (map_data h1 M)) as ->
    by (unfold map_set; by rewrite map_data_insert_eq).
  rewrite MapData_set_length.
  destruct (resolve h (_internalMap c) K) as [M0|].
  - destruct Htarget as [-> ->]. by eexists _, _.
  - rewrite Htarget. by exists 0, false.
Qed.

Lemma size_after_set_witness :
  let c := {| _internalMap := 0 |} in
  let h := [[(VStr "x", VMap 1)]; [(VStr "y", VNum 1)]] in
  let h' := [[(VStr "x", VMap 1)]; [(VStr "y", VNum 1); (VStr "z", VNum 2)]] in
  ∃ n b,
    MultiLevelMap.size c [VStr "x"] h = Ret n h
    ∧ MultiLevelMap.has c ([VStr "x"] ++ [VStr "z"]) h = Ret b h
    ∧ MultiLevelMap.size c [VStr "x"] h' = Ret (if b then n else S n) h'.
Proof.
  intros c h h'.
  apply (size_after_set c h [VStr "x"] (VStr "z") (VNum 2) (VMap 1) h').
  - solve_ok.
  - intros M HM. injection HM as <-. simpl.
    intros Hin. apply list_elem_of_singleton in Hin. discriminate Hin.
  - reflexivity.
Defined.

(** X9: [set] leaves the other keys of the map alone.  On a container
    without dangling references, when [set(...K, k, v)] returns with the
    write off the path, [get(...K, k2)] and [has(...K, k2)] return for every
    other key [k2] what they returned before the call. *)
Theorem set_keeps_sibling_keys c h K k v r h' k2 :
  container_ok c h →
  write_off_path h (_internalMap c) K k →
  MultiLevelMap.set c (K ++ [k; v]) h = Ret r h' →
  k2 ≠ k →
  ∃ x b,
    MultiLevelMap.get c (K ++ [k2]) h = Ret x h
    ∧ MultiLevelMap.get c (K ++ [k2]) h' = Ret x h'
    ∧ MultiLevelMap.has c (K ++ [k2]) h = Ret b h
    ∧ MultiLevelMap.has c (K ++ [k2]) h' = Ret b h'.
Proof.
  intros Hc Hoff Hset Hne.
  destruct (set_inv c h K k v Hc) as [(e & He & _)|(M & h1 & HM & Hfind & Hpost)];
    [congruence|].
  rewrite HM in Hset. injection Hset as <- <-.
  destruct Hc as [Hroot Hok].
  destruct (write_keeps_path K _ h M h1 k v Hroot Hpost Hoff) as [_ Hres].
  pose proof (find_create_target _ _ _ _ _ _ Hok Hroot Hfind) as Htarget.
  destruct Hpost as (_ & HMlt & _).
  rewrite !get_path, !has_path, Hres.
  assert (MapData.get k2 (map_data (map_set h1 M k v) M)
          = MapData.get k2 (map_data h1 M)) as Hsame.
  { unfold map_set. rewrite map_data_insert_eq by done.
    apply MapData_get_set_ne. congruence. }
  unfold map_get, map_has, MapData.has. rewrite Hsame.
  destruct (resolve h (_internalMap c) K) as [M0|].
  - destruct Htarget as [-> ->]. by eexists _, _.
  - rewrite Htarget. simpl. by exists VUndef, false.
Qed.

Lemma set_keeps_sibling_keys_witness :
  let c := {| _internalMap := 0 |} in
  let h := [[(VStr "x", VMap 1)]; [(VStr "y", VNum 1)]] in
  let h' := [[(VStr "x", VMap 1)]; [(VStr "y", VNum 1); (VStr "z", VNum 2)]] in
  ∃ x b,
    MultiLevelMap.get c ([VStr "x"] ++ [VStr "y"]) h = Ret x h
    ∧ MultiLevelMap.get c ([VStr "x"] ++ [VStr "y"]) h' = Ret x h'
    ∧ MultiLevelMap.has c ([VStr "x"] ++ [VStr "y"]) h = Ret b h
    ∧ MultiLevelMap.has c ([VStr "x"] ++ [VStr "y"]) h' = Ret b h'.
Proof.
  intros c h h'.
  apply (set_keeps_sibling_keys c h [VStr "x"] (VStr "z") (VNum 2) (VMap 1) h'
           (VStr "y")).
  - solve_ok.
  - intros M HM. injection HM as <-. simpl.
    intros Hin. apply list_elem_of_singleton in Hin. discriminate Hin.
  - reflexivity.
  - discriminate.
Defined.

(** X20: a value in the way.  On a container without dangling references,
    once [set(k, v1)] has stored a value [v1] that is not a map,
    [set(k, k2, v2)] throws and leaves the store as it is, so that [get(k)]
    is still [v1]; what it throws is the error about a child map, with the
    key [k] and the array [[k]], when the message can be built from them,
    and the [TypeError] of the conversion otherwise.  In general a [set]
    that throws leaves the store exactly as it was, and when it throws the
    error about a child map, the message could be built, the key in the way
    still holds its value, which is not a map, and the keys before it still
    lead to the same map. *)
Theorem set_conflict c h :
  container_ok c h →
  (∀ k k2 v1 v2 r h1,
     instanceof_Map v1 = None →
     MultiLevelMap.set c [k; v1] h = Ret r h1 →
     MultiLevelMap.set c [k; k2; v2] h1
     = Throw (if message_ok k [k] then ErrorChildMap k [k]
              else BuiltinTypeError) h1
     ∧ MultiLevelMap.get c [k] h1 = Ret v1 h1)
  ∧ (∀ params e h',
       MultiLevelMap.set c params h = Throw e h' →
       h' = h
       ∧ (ConflictError e →
          ∃ key i M,
            message_ok key (take (length params - 2) params) = true
            ∧ take (length params - 2) params !! i = Some key
            ∧ resolve h' (_internalMap c) (take i params) = Some M
            ∧ map_has h' M key = true
            ∧ map_get h' M key = map_get h M key
            ∧ instanceof_Map (map_get h' M key) = None)).
Proof.
  intros Hc. split.
  - intros k k2 v1 v2 r h1 Hleaf Hset. destruct Hc as [Hroot _].
    injection Hset as <- <-.
    change (at_index [k; v1] 0) with k. change (at_index [k; v1] 1) with v1.
    split.
    + change [k; k2; v2] with ([k] ++ [k2; v2]). rewrite set_path.
      unfold s_FIND_CHILD_MAP. rewrite find_create_step.
      by rewrite map_get_set_eq, Hleaf, map_has_set_eq.
    + change [k] with ([] ++ [k]). rewrite get_path. simpl.
      by rewrite map_get_set_eq.
  - intros params e h' Hset.
    destruct (set_throw_inv c h params e h' Hc Hset) as [-> Hinv].
    split; [done|]. intros Hconf.
    destruct (Hinv Hconf) as (key & i & M & Hmsg & _ & Hi & Hres & Hhas & Hleaf).
    exists key, i, M. split_and!; try done.
    rewrite take_take in Hres.
    apply lookup_lt_Some in Hi. rewrite length_take in Hi.
    by replace (i `min` (length params - 2)) with i in Hres by lia.
Qed.

Lemma set_conflict_witness :
  let c := {| _internalMap := 0 |} in
  let h1 := [[(VStr "k", VNum 1)]] in
  MultiLevelMap.set c [VStr "k"; VStr "k2"; VNum 2] h1
  = Throw (ErrorChildMap (VStr "k") [VStr "k"]) h1
  ∧ MultiLevelMap.get c [VStr "k"] h1 = Ret (VNum 1) h1.
Proof.
  intros c h1.
  assert (container_ok c [[]]) as Hc by solve_ok.
  apply (proj1 (set_conflict c [[]] Hc)
           (VStr "k") (VStr "k2") (VNum 1) (VNum 2) (VMap 0) h1);
    reflexivity.
Defined.

Section iterator_facts.
Implicit Types (h : heap) (l : loc) (kind : iter_kind).

(** What a map iterator of a kind makes of an entry. *)
Lemma pull_MapIterator n kind l i h :
  pull n (MapIterator kind l i) h =
    (λ kv : val * val,
       match kind with
       | IterKeys => ItemKey kv.1
       | IterValues => ItemValue kv.2
       | IterEntries => ItemEntry kv.1 kv.2
       end) <$> take n (drop i (map_data h l)).
Proof.
  revert i. induction n as [|n IH]; intros i; [done|]. simpl.
  destruct (map_data h l !! i) as [[k v]|] eqn:Hi.
  - rewrite (drop_S _ _ _ Hi). simpl. by rewrite IH.
  - rewrite drop_ge; [done|]. by apply lookup_ge_None.
Qed.

Lemma pull_EMPTY n h : pull n s_EMPTY_ITERATOR h = [].
Proof. by destruct n. Qed.

End iterator_facts.

(** X10: what the iterators yield.  For every store and keys there is a
    list of entries (those of the map the keys lead to, in order, or none)
    such that [size] returns its length and [keys], [values] and [entries]
    return iterators whose [next()] yields, one after the other, the keys,
    the values and the [[key, value]] pairs of exactly these entries and is
    done after them, however often it is called. *)
Theorem iterators_yield_the_entries c keys h :
  ∃ es itk itv ite,
    es = match resolve h (_internalMap c) keys with
         | Some M => map_data h M
         | None => []
         end
    ∧ MultiLevelMap.size c keys h = Ret (length es) h
    ∧ MultiLevelMap.keys c keys h = Ret itk h
    ∧ MultiLevelMap.values c keys h = Ret itv h
    ∧ MultiLevelMap.entries c keys h = Ret ite h
    ∧ ∀ n, length es ≤ n →
        pull n itk h = (λ kv, ItemKey kv.1) <$> es
        ∧ pull n itv h = (λ kv, ItemValue kv.2) <$> es
        ∧ pull n ite h = (λ kv, ItemEntry kv.1 kv.2) <$> es.
Proof.
  rewrite size_path, keys_path, values_path, entries_path.
  destruct (resolve h (_internalMap c) keys) as [M|].
  - eexists _, _, _, _. split_and!; try done.
    intros n Hn. rewrite !pull_MapIterator. simpl. by rewrite take_ge.
  - eexists _, _, _, _. split_and!; try done.
    intros n _. by rewrite pull_EMPTY.
Qed.

(** * Properties of [Utils.isTypeOf] *)

Section isTypeOf_facts.
Implicit Types (a b c p q : ref).

Lemma s_WALK_PROTO_loop_chain p q : s_WALK_PROTO_loop p q = true ↔ q ∈ chain p.
Proof.
  induction p as [|id next IH]; simpl.
  - split; [done|by intros ?%elem_of_nil].
  - destruct (decide (Object id next = q)) as [<-|Hne].
    + split; [by left|done].
    + rewrite IH, elem_of_cons. split; [by right|]. by intros [->|?].
Qed.

Lemma isTypeOf_chain a b :
  Utils.isTypeOf a b = Normal true ↔ a = b ∨ b ∈ chain a.
Proof.
  unfold Utils.isTypeOf. destruct (decide (a = b)) as [->|Hne];
    [split; [by left|done]|].
  destruct a as [|id next]; simpl.
  - split; [done|]. intros [?|?%elem_of_nil]; done.
  - unfold s_WALK_PROTO. simpl. rewrite elem_of_cons.
    split.
    + intros [= Hloop]. right. right. by apply s_WALK_PROTO_loop_chain.
    + intros [?|[?|Hin]]; try done. f_equal. by apply s_WALK_PROTO_loop_chain.
Qed.

Lemma chain_trans a b c : b ∈ chain a → c ∈ chain b → c ∈ chain a.
Proof.
  induction a as [|id next IH]; simpl; [by intros ?%elem_of_nil|].
  intros [->|Hb]%elem_of_cons Hc; [done|]. right. by apply IH.
Qed.

Lemma chain_length a b :
  b ∈ chain a →
  length (chain b) ≤ length (chain a)
  ∧ (length (chain b) = length (chain a) → b = a).
Proof.
  induction a as [|id next IH]; simpl; [by intros ?%elem_of_nil|].
  intros [->|Hb]%elem_of_cons; [done|].
  destruct (IH Hb) as [Hle _]. split; lia.
Qed.

Lemma chain_no_Null p : Null ∉ chain p.
Proof.
  induction p as [|id next IH]; simpl; [by intros ?%elem_of_nil|].
  by intros [?|?]%elem_of_cons.
Qed.

End isTypeOf_facts.

(** X11: [isTypeOf] is reflexive and transitive.  Every value is a type of
    itself, and when [a] is a type of [b] and [b] is a type of [c], then
    [a] is a type of [c]: the prototype chain of [b] is the end of the
    prototype chain of [a]. *)
Theorem isTypeOf_preorder :
  (∀ a, Utils.isTypeOf a a = Normal true)
  ∧ (∀ a b c,
       Utils.isTypeOf a b = Normal true → Utils.isTypeOf b c = Normal true →
       Utils.isTypeOf a c = Normal true).
Proof.
  split.
  - intros a. apply isTypeOf_chain. by left.
  - intros a b c Hab Hbc. apply isTypeOf_chain.
    apply isTypeOf_chain in Hab as [->|Hab]; [by apply isTypeOf_chain|].
    apply isTypeOf_chain in Hbc as [->|Hbc]; [by right|].
    right. by eapply chain_trans.
Qed.

(** X12: [isTypeOf] and [null], for arguments that are [null] or objects
    ([undefined] and the primitive values are not among the arguments
    here).  On these the only exception that [isTypeOf] ends with is the
    [TypeError] of [Object.getPrototypeOf], and it does so exactly when the
    child is [null] and the parent is an object; [null] is a type of
    [null]; and no object is a type of [null], since the walk stops at the
    end of the chain before it compares. *)
Theorem isTypeOf_null a b :
  (Utils.isTypeOf a b = Abrupt TypeError ↔ a = Null ∧ b ≠ Null)
  ∧ (∀ e, Utils.isTypeOf a b = Abrupt e → e = TypeError)
  ∧ Utils.isTypeOf Null Null = Normal true
  ∧ (a ≠ Null → Utils.isTypeOf a Null = Normal false).
Proof.
  split_and!.
  - unfold Utils.isTypeOf. destruct (decide (a = b)) as [->|Hne].
    + split; [done|]. intros [-> Hb]. by destruct Hb.
    + destruct a as [|id next]; unfold s_WALK_PROTO; simpl.
      * split; [intros _; split; congruence|done].
      * split; [done|]. by intros [? _].
  - intros e. unfold Utils.isTypeOf. destruct (decide (a = b)); [done|].
    destruct a as [|id next]; unfold s_WALK_PROTO; simpl; [|done].
    by intros [= <-].
  - done.
  - intros Ha. destruct a as [|id next]; [done|].
    unfold Utils.isTypeOf, s_WALK_PROTO. simpl. f_equal.
    destruct (s_WALK_PROTO_loop next Null) eqn:Hloop; [|done].
    apply s_WALK_PROTO_loop_chain in Hloop. by apply chain_no_Null in Hloop.
Qed.

(** X13: [isTypeOf] is antisymmetric.  When [a] is a type of another
    value [b], then [b] is not a type of [a]: the call [isTypeOf(b, a)]
    returns [false].  A proper ancestor has a shorter prototype chain. *)
Theorem isTypeOf_antisymmetric a b :
  Utils.isTypeOf a b = Normal true → a ≠ b →
  Utils.isTypeOf b a = Normal false.
Proof.
  intros Hab Hne.
  apply (proj1 (isTypeOf_chain a b)) in Hab. destruct Hab as [->|Hab]; [done|].
  destruct (Utils.isTypeOf b a) as [[|]|e] eqn:Hba; [|done|].
  - apply (proj1 (isTypeOf_chain b a)) in Hba. destruct Hba as [->|Hba]; [done|].
    destruct (chain_length _ _ Hab) as [Hle1 _].
    destruct (chain_length _ _ Hba) as [Hle2 Heq]. destruct Hne. apply Heq. lia.
  - unfold Utils.isTypeOf in Hba. destruct (decide (b = a)); [done|].
    destruct b as [|id next]; [|done]. by apply chain_no_Null in Hab.
Qed.

Lemma isTypeOf_antisymmetric_witness :
  Utils.isTypeOf (Object 1 Null) (Object 2 (Object 1 Null)) = Normal false.
Proof.
  apply (isTypeOf_antisymmetric (Object 2 (Object 1 Null)) (Object 1 Null)).
  - reflexivity.
  - discriminate.
Defined.

(** * Properties of [btoa] *)

(** The test of the repository: [btoa('This is a test!')]. *)
Example polyBtoa_test :
  Btoa.polyBtoa (Btoa.ArgString (Btoa.code_units "This is a test!"))
  = Normal "VGhpcyBpcyBhIHRlc3Qh"%string.
Proof. vm_compute. reflexivity. Qed.

Section btoa_bits.
Import Btoa.
Local Open Scope Z_scope.

Lemma ToInt32_eq x : ∃ t, ToInt32 x = x + t * 4294967296 ∧ -2147483648 ≤ ToInt32 x < 2147483648.
Proof.
  unfold ToInt32. change (2^32) with 4294967296. change (2^31) with 2147483648.
  destruct (Z.ltb_spec (x mod 4294967296) 2147483648).
  - exists (- (x / 4294967296)). dlia.
  - exists (- (x / 4294967296) - 1). dlia.
Qed.

Lemma ToInt32_small x : -2147483648 ≤ x < 2147483648 → ToInt32 x = x.
Proof.
  intros Hx. unfold ToInt32. change (2^32) with 4294967296. change (2^31) with 2147483648.
  destruct (Z.ltb_spec (x mod 4294967296) 2147483648); dlia.
Qed.

Lemma and_shr_sextet1 x : js_and (js_shr x 2) 0x3F = sextet1 x.
Proof.
  unfold js_and, js_shr, sextet1.
  rewrite (ToInt32_small 63) by lia.
  change 63 with (Z.ones 6). rewrite Z.land_ones by lia.
  destruct (ToInt32_eq x) as (t & Hx & Hr).
  rewrite ToInt32_small.
  - rewrite Z.shiftr_div_pow2 by lia. rewrite Hx. change (2^2) with 4. change (2^6) with 64. dlia.
  - rewrite Z.shiftr_div_pow2 by lia. change (2^2) with 4. dlia.
Qed.

Lemma shl_and_low x : js_shl (js_and x 0x03) 4 = x mod 4 * 16.
Proof.
  unfold js_shl, js_and.
  rewrite (ToInt32_small 3) by lia.
  change 3 with (Z.ones 2). rewrite Z.land_ones by lia. change (2^2) with 4.
  destruct (ToInt32_eq x) as (t & Hx & Hr).
  assert (ToInt32 x mod 4 = x mod 4) as -> by (rewrite Hx; dlia).
  rewrite (ToInt32_small (x mod 4)) by dlia.
  rewrite Z.shiftl_mul_pow2 by lia. change (2^4) with 16.
  apply ToInt32_small. dlia.
Qed.

Lemma and_shr_mid y : js_and (js_shr y 4) 0xF = y mod 256 / 16.
Proof.
  unfold js_and, js_shr.
  rewrite (ToInt32_small 15) by lia.
  change 15 with (Z.ones 4). rewrite Z.land_ones by lia.
  destruct (ToInt32_eq y) as (t & Hx & Hr).
  rewrite ToInt32_small.
  - rewrite Z.shiftr_div_pow2 by lia. rewrite Hx. change (2^4) with 16. dlia.
  - rewrite Z.shiftr_div_pow2 by lia. change (2^4) with 16. dlia.
Qed.

Lemma shl_and_mid y : js_shl (js_and y 0xF) 2 = y mod 16 * 4.
Proof.
  unfold js_shl, js_and.
  rewrite (ToInt32_small 15) by lia.
  change 15 with (Z.ones 4). rewrite Z.land_ones by lia. change (2^4) with 16.
  destruct (ToInt32_eq y) as (t & Hx & Hr).
  assert (ToInt32 y mod 16 = y mod 16) as -> by (rewrite Hx; dlia).
  rewrite (ToInt32_small (y mod 16)) by dlia.
  rewrite Z.shiftl_mul_pow2 by lia. change (2^2) with 4.
  apply ToInt32_small. dlia.
Qed.

Lemma and_shr_high z : js_and (js_shr z 6) 0x03 = z mod 256 / 64.
Proof.
  unfold js_and, js_shr.
  rewrite (ToInt32_small 3) by lia.
  change 3 with (Z.ones 2). rewrite Z.land_ones by lia.
  destruct (ToInt32_eq z) as (t & Hx & Hr).
  rewrite ToInt32_small.
  - rewrite Z.shiftr_div_pow2 by lia. rewrite Hx. change (2^6) with 64. change (2^2) with 4. dlia.
  - rewrite Z.shiftr_div_pow2 by lia. change (2^6) with 64. dlia.
Qed.

Lemma and_low z : js_and z 0x3F = sextet4 z.
Proof.
  unfold js_and, sextet4.
  rewrite (ToInt32_small 63) by lia.
  change 63 with (Z.ones 6). rewrite Z.land_ones by lia. change (2^6) with 64.
  destruct (ToInt32_eq z) as (t & Hx & Hr). rewrite Hx. dlia.
Qed.

(** A property of all numbers below [n], checked one by one. *)
Lemma Z_below_forall (P : Z → bool) (n : nat) :
  forallb P (Z.of_nat <$> seq 0 n) = true →
  ∀ z, 0 ≤ z < Z.of_nat n → P z = true.
Proof.
  intros Hall z Hz. rewrite forallb_forall in Hall. apply Hall.
  apply list_elem_of_In, list_elem_of_fmap. exists (Z.to_nat z). split; [lia|].
  apply elem_of_seq. lia.
Qed.

Lemma lor_disjoint (w : nat) u e :
  forallb (λ u, forallb (λ e, Z.lor (u * Z.of_nat w) e =? u * Z.of_nat w + e)
                  (Z.of_nat <$> seq 0 w)) (Z.of_nat <$> seq 0 (64 / w)) = true →
  0 ≤ u < Z.of_nat (64 / w) → 0 ≤ e < Z.of_nat w →
  Z.lor (u * Z.of_nat w) e = u * Z.of_nat w + e.
Proof.
  intros Hall Hu He.
  pose proof (Z_below_forall _ _ Hall u Hu) as Hrow. simpl in Hrow.
  pose proof (Z_below_forall _ _ Hrow e He) as Hcell. simpl in Hcell.
  by apply Z.eqb_eq.
Qed.

Lemma or_sextet2 x y :
  js_or (x mod 4 * 16) (y mod 256 / 16) = sextet2 x y.
Proof.
  unfold js_or, sextet2. rewrite !ToInt32_small by dlia.
  apply (lor_disjoint 16); [by vm_compute|simpl; dlia|simpl; dlia].
Qed.

Lemma or_sextet3 y z :
  js_or (y mod 16 * 4) (z mod 256 / 64) = sextet3 y z.
Proof.
  unfold js_or, sextet3. rewrite !ToInt32_small by dlia.
  apply (lor_disjoint 4); [by vm_compute|simpl; dlia|simpl; dlia].
Qed.

Lemma sextet_bounds x y z :
  0 ≤ sextet1 x < 64 ∧ 0 ≤ sextet2 x y < 64
  ∧ 0 ≤ sextet3 y z < 64 ∧ 0 ≤ sextet4 z < 64.
Proof. unfold sextet1, sextet2, sextet3, sextet4. dlia. Qed.

End btoa_bits.

Section btoa_facts.
Import Btoa.

Lemma list_ind3 {A} (P : list A → Prop) :
  P [] → (∀ x, P [x]) → (∀ x y, P [x; y]) →
  (∀ x y z rest, P rest → P (x :: y :: z :: rest)) →
  ∀ l, P l.
Proof.
  intros H0 H1 H2 H3 l.
  assert (∀ n l, length l ≤ n → P l) as Hall; [|by apply (Hall (length l))].
  clear l. induction n as [|n IH]; intros l Hl.
  - destruct l; [done|simpl in Hl; lia].
  - destruct l as [|x [|y [|z rest]]]; try done.
    apply H3, IH. simpl in Hl. lia.
Qed.

Lemma string_append_cons ch s t :
  String.append (String ch s) t = String ch (String.append s t).
Proof. reflexivity. Qed.

Lemma string_append_nil_r s : String.append s EmptyString = s.
Proof. induction s as [|ch s IH]; [done|]. by rewrite string_append_cons, IH. Qed.

Lemma string_append_assoc s t u :
  String.append (String.append s t) u = String.append s (String.append t u).
Proof. induction s as [|ch s IH]; [done|]. by rewrite !string_append_cons, IH. Qed.

Lemma string_concat_cons x l :
  String.concat EmptyString (x :: l) = String.append x (String.concat EmptyString l).
Proof. destruct l; [symmetry; apply string_append_nil_r|done]. Qed.

Lemma string_concat_app l1 l2 :
  String.concat EmptyString (l1 ++ l2)
  = String.append (String.concat EmptyString l1) (String.concat EmptyString l2).
Proof.
  induction l1 as [|x l1 IH]; [done|].
  change ((x :: l1) ++ l2) with (x :: (l1 ++ l2)).
  by rewrite !string_concat_cons, IH, string_append_assoc.
Qed.

Lemma mod3_succ i :
  (i mod 3 = 0 → S i mod 3 = 1) ∧ (i mod 3 = 1 → S i mod 3 = 2)
  ∧ (i mod 3 = 2 → S i mod 3 = 0).
Proof.
  pose proof (Nat.div_mod_eq i 3) as Hi.
  split_and!; intros Hr; rewrite Hr in Hi; symmetry.
  - apply (Nat.mod_unique _ _ (i / 3)); lia.
  - apply (Nat.mod_unique _ _ (i / 3)); lia.
  - apply (Nat.mod_unique _ _ (S (i / 3))); lia.
Qed.

Lemma polyBtoa_step_0 i x s :
  i mod 3 = 0 →
  polyBtoa_step i x s =
    {| var_a := Some (sextet1 x); var_b := Some (sextet2 x 0);
       var_c := var_c s; var_d := var_d s; answer := answer s |}.
Proof.
  intros Hi. unfold polyBtoa_step. rewrite Hi.
  rewrite and_shr_sextet1, shl_and_low. unfold sextet2.
  by rewrite Z.add_0_r.
Qed.

Lemma polyBtoa_step_1 i x y s :
  i mod 3 = 1 → var_b s = Some (sextet2 x 0) →
  polyBtoa_step i y s =
    {| var_a := var_a s; var_b := Some (sextet2 x y);
       var_c := Some (sextet3 y 0); var_d := var_d s; answer := answer s |}.
Proof.
  intros Hi Hb. unfold polyBtoa_step. rewrite Hi, Hb. simpl num.
  rewrite and_shr_mid, shl_and_mid. unfold sextet2 at 1, sextet3.
  change (0 `mod` 256 / 16)%Z with 0%Z. change (0 `mod` 256 / 64)%Z with 0%Z.
  by rewrite !Z.add_0_r, or_sextet2.
Qed.

Lemma polyBtoa_step_2 i y z s :
  i mod 3 = 2 → var_c s = Some (sextet3 y 0) →
  polyBtoa_step i z s =
    {| var_a := None; var_b := None; var_c := None; var_d := None;
       answer := answer s ++ [s_BTOA_GET_CHAR (var_a s);
                              s_BTOA_GET_CHAR (var_b s);
                              s_BTOA_GET_CHAR (Some (sextet3 y z));
                              s_BTOA_GET_CHAR (Some (sextet4 z))] |}.
Proof.
  intros Hi Hc. unfold polyBtoa_step. rewrite Hi, Hc. simpl num.
  rewrite and_shr_high, and_low. unfold sextet3 at 1.
  change (0 `mod` 256 / 64)%Z with 0%Z.
  by rewrite Z.add_0_r, or_sextet3.
Qed.

Lemma polyBtoa_loop_groups array :
  ∀ i acc, i mod 3 = 0 →
    polyBtoa_finish (polyBtoa_loop array i (Vars None None None None acc))
    = String.concat EmptyString (acc ++ groups array).
Proof.
  induction array as [|x|x y|x y z rest IH] using list_ind3; intros i acc Hi.
  - simpl. by rewrite app_nil_r.
  - simpl polyBtoa_loop. by rewrite (polyBtoa_step_0 _ _ _ Hi).
  - assert (S i mod 3 = 1) as Hi1 by (by apply mod3_succ).
    simpl polyBtoa_loop.
    rewrite (polyBtoa_step_0 _ _ _ Hi), (polyBtoa_step_1 _ x _ _ Hi1) by done.
    done.
  - assert (S i mod 3 = 1) as Hi1 by (by apply mod3_succ).
    assert (S (S i) mod 3 = 2) as Hi2 by (by apply mod3_succ).
    assert (S (S (S i)) mod 3 = 0) as Hi3 by (by apply mod3_succ).
    simpl polyBtoa_loop.
    rewrite (polyBtoa_step_0 _ _ _ Hi), (polyBtoa_step_1 _ x _ _ Hi1) by done.
    rewrite (polyBtoa_step_2 _ y _ _ Hi2) by done.
    simpl. rewrite (IH _ _ Hi3). by rewrite <- app_assoc.
Qed.

Lemma polyBtoa_array array :
  polyBtoa (ArgArray array) = Normal (String.concat EmptyString (groups array)).
Proof. unfold polyBtoa. by rewrite (polyBtoa_loop_groups array 0 []). Qed.

Lemma string_length_append s t :
  String.length (String.append s t) = String.length s + String.length t.
Proof.
  induction s as [|ch s IH]; [done|].
  rewrite string_append_cons. simpl. by rewrite IH.
Qed.

Lemma string_list_ascii_append s t :
  String.list_ascii_of_string (String.append s t)
  = String.list_ascii_of_string s ++ String.list_ascii_of_string t.
Proof.
  induction s as [|ch s IH]; [done|].
  rewrite string_append_cons. simpl. by rewrite IH.
Qed.

(** What the check [GET_CHAR_ok] gives for each six-bit value. *)
Lemma GET_CHAR_spec s :
  (0 ≤ s < 64)%Z →
  ∃ ch, s_BTOA_GET_CHAR (Some s) = String ch EmptyString
        ∧ String ch EmptyString ≠ "="%string
        ∧ ch ∈ String.list_ascii_of_string s_BTOA_BASE_64_CHARS
        ∧ ∀ t, (0 ≤ t < 64)%Z →
               s_BTOA_GET_CHAR (Some t) = String ch EmptyString → t = s.
Proof.
  intros Hs.
  assert (GET_CHAR_ok s = true) as Hok.
  { apply (Z_below_forall GET_CHAR_ok 64); [by vm_compute|done]. }
  unfold GET_CHAR_ok in Hok.
  destruct (s_BTOA_GET_CHAR (Some s)) as [|ch [|]]; try done.
  apply andb_prop in Hok as [[Hpad Hin]%andb_prop Hinj].
  exists ch. split_and!; [done| | |].
  - intros Heq. by rewrite Heq in Hpad.
  - apply existsb_exists in Hin as (ch' & Hin & ->%Ascii.eqb_eq).
    by apply list_elem_of_In.
  - intros t Ht Heq.
    pose proof (Z_below_forall _ 64 Hinj t Ht) as Hcell. simpl in Hcell.
    rewrite Heq, String.eqb_refl in Hcell. simpl in Hcell. by apply Z.eqb_eq.
Qed.

Lemma GET_CHAR_length s : (0 ≤ s < 64)%Z → String.length (s_BTOA_GET_CHAR (Some s)) = 1.
Proof. intros Hs. by destruct (GET_CHAR_spec s Hs) as (ch & -> & _). Qed.

Ltac sextets x y z :=
  let H := fresh "Hsx" in
  pose proof (sextet_bounds x y z) as H; destruct H as (? & ? & ? & ?).

Lemma groups_single array : Forall (λ s, String.length s = 1) (groups array).
Proof.
  induction array as [|x|x y|x y z rest IH] using list_ind3.
  - constructor.
  - sextets x 0%Z 0%Z. repeat constructor; by apply GET_CHAR_length.
  - sextets x y 0%Z. repeat constructor; by apply GET_CHAR_length.
  - sextets x y z.
    change (groups (x :: y :: z :: rest)) with
      ([s_BTOA_GET_CHAR (Some (sextet1 x)); s_BTOA_GET_CHAR (Some (sextet2 x y));
        s_BTOA_GET_CHAR (Some (sextet3 y z)); s_BTOA_GET_CHAR (Some (sextet4 z))]
       ++ groups rest).
    apply Forall_app. split; [|done]. repeat constructor; by apply GET_CHAR_length.
Qed.

Lemma groups_count array : length (groups array) = 4 * ((length array + 2) / 3).
Proof.
  induction array as [|x|x y|x y z rest IH] using list_ind3; try done.
  change (length (groups (x :: y :: z :: rest))) with (4 + length (groups rest)).
  rewrite IH. simpl length.
  replace (S (S (S (length rest))) + 2) with (length rest + 2 + 1 * 3) by lia.
  rewrite Nat.div_add by lia. lia.
Qed.

Lemma string_concat_length l :
  Forall (λ s, String.length s = 1) l →
  String.length (String.concat EmptyString l) = length l.
Proof.
  induction 1 as [|x l Hx _ IH]; [done|].
  rewrite string_concat_cons, string_length_append, Hx, IH. done.
Qed.

(** X14: the length of the result.  On an array of [n] integers [polyBtoa]
    returns a string of [4 * ceil(n / 3)] characters, whatever the
    integers are. *)
Theorem polyBtoa_length array :
  ∃ out, polyBtoa (ArgArray array) = Normal out
         ∧ String.length out = 4 * ((length array + 2) / 3).
Proof.
  eexists. split; [apply polyBtoa_array|].
  rewrite string_concat_length by apply groups_single. apply groups_count.
Qed.

Lemma in_alphabet_append s t :
  in_alphabet s → in_alphabet t → in_alphabet (String.append s t).
Proof.
  unfold in_alphabet. rewrite string_list_ascii_append. intros. by apply Forall_app.
Qed.

Lemma in_alphabet_GET_CHAR s : (0 ≤ s < 64)%Z → in_alphabet (s_BTOA_GET_CHAR (Some s)).
Proof.
  intros Hs. destruct (GET_CHAR_spec s Hs) as (ch & -> & _ & Hin & _).
  unfold in_alphabet.
  change (String.list_ascii_of_string (String ch EmptyString)) with [ch].
  constructor; [done|constructor].
Qed.

(** X15: the characters of the result.  On an array of [n] integers the
    result is a string of characters of [s_BTOA_BASE_64_CHARS], followed by
    no [=] when [n] is a multiple of three, by [==] when one element is
    left over, and by [=] when two are. *)
Theorem polyBtoa_alphabet_padding array :
  ∃ body,
    polyBtoa (ArgArray array)
    = Normal (String.append body
                match length array mod 3 with
                | 0 => EmptyString
                | 1 => "=="%string
                | _ => "="%string
                end)
    ∧ in_alphabet body.
Proof.
  rewrite polyBtoa_array.
  induction array as [|x|x y|x y z rest IH] using list_ind3.
  - exists EmptyString. split; [done|constructor].
  - sextets x 0%Z 0%Z.
    exists (String.append (s_BTOA_GET_CHAR (Some (sextet1 x)))
              (s_BTOA_GET_CHAR (Some (sextet2 x 0)))).
    split.
    + change (groups [x]) with
        [s_BTOA_GET_CHAR (Some (sextet1 x)); s_BTOA_GET_CHAR (Some (sextet2 x 0));
         "="%string; "="%string].
      by rewrite !string_concat_cons, string_append_assoc.
    + by apply in_alphabet_append; apply in_alphabet_GET_CHAR.
  - sextets x y 0%Z.
    exists (String.append (s_BTOA_GET_CHAR (Some (sextet1 x)))
              (String.append (s_BTOA_GET_CHAR (Some (sextet2 x y)))
                 (s_BTOA_GET_CHAR (Some (sextet3 y 0))))).
    split.
    + change (groups [x; y]) with
        [s_BTOA_GET_CHAR (Some (sextet1 x)); s_BTOA_GET_CHAR (Some (sextet2 x y));
         s_BTOA_GET_CHAR (Some (sextet3 y 0)); "="%string].
      by rewrite !string_concat_cons, !string_append_assoc.
    + by repeat apply in_alphabet_append; apply in_alphabet_GET_CHAR.
  - sextets x y z. destruct IH as (body & Hbody & Hin).
    injection Hbody as Hbody.
    exists (String.append
              (String.concat EmptyString
                 [s_BTOA_GET_CHAR (Some (sextet1 x)); s_BTOA_GET_CHAR (Some (sextet2 x y));
                  s_BTOA_GET_CHAR (Some (sextet3 y z)); s_BTOA_GET_CHAR (Some (sextet4 z))])
              body).
    split.
    + change (groups (x :: y :: z :: rest)) with
        ([s_BTOA_GET_CHAR (Some (sextet1 x)); s_BTOA_GET_CHAR (Some (sextet2 x y));
          s_BTOA_GET_CHAR (Some (sextet3 y z)); s_BTOA_GET_CHAR (Some (sextet4 z))]
         ++ groups rest).
      rewrite string_concat_app, Hbody, string_append_assoc. do 3 f_equal.
      change (length (x :: y :: z :: rest)) with (3 + length rest).
      replace (3 + length rest) with (length rest + 1 * 3) by lia.
      by rewrite Nat.Div0.mod_add.
    + apply in_alphabet_append; [|done]. rewrite !string_concat_cons.
      repeat apply in_alphabet_append; try (by apply in_alphabet_GET_CHAR).
      constructor.
Qed.

Lemma polyBtoa_fill_ok rest :
  ∀ pre, Forall (λ ch, (ch ≤ 255)%Z) rest →
    polyBtoa_fill rest (length pre) (pre ++ s_BTOA_NEW_BINARY (length rest))
    = Normal (pre ++ rest).
Proof.
  induction rest as [|ch rest IH]; intros pre Hall.
  - reflexivity.
  - inversion Hall as [|? ? Hch Hall']; subst. simpl.
    destruct (Z.ltb_spec 255 ch) as [?|_]; [lia|].
    rewrite insert_app_r_alt by lia. rewrite Nat.sub_diag. simpl.
    specialize (IH (pre ++ [ch]) Hall').
    rewrite length_app, <- !app_assoc in IH. simpl in IH.
    by rewrite Nat.add_1_r in IH.
Qed.

Lemma polyBtoa_fill_throw rest :
  ∀ j array, Exists (λ ch, (255 < ch)%Z) rest →
    polyBtoa_fill rest j array
    = Abrupt (Thrown (ErrorMessage
        "Not ascii. Base64.encode can only take ascii strings")).
Proof.
  induction rest as [|ch rest IH]; intros j array Hex.
  - by apply Exists_nil in Hex.
  - simpl. destruct (Z.ltb_spec 255 ch) as [?|Hle]; [done|].
    apply IH. inversion Hex; subst; [lia|done].
Qed.

(** X16: strings.  On a string [polyBtoa] throws its error exactly when
    some code unit is above [0xFF]; on a string without such a code unit
    (which need not be ASCII: the code units from 128 to 255 pass) it
    returns what it returns on the array of the code units. *)
Theorem polyBtoa_string str :
  (Exists (λ ch, (255 < ch)%Z) str ↔
   polyBtoa (ArgString str)
   = Abrupt (Thrown (ErrorMessage
       "Not ascii. Base64.encode can only take ascii strings")))
  ∧ (Forall (λ ch, (ch ≤ 255)%Z) str →
     polyBtoa (ArgString str) = polyBtoa (ArgArray str)).
Proof.
  assert (Forall (λ ch, (ch ≤ 255)%Z) str →
          polyBtoa (ArgString str) = polyBtoa (ArgArray str)) as Hok.
  { intros Hall. unfold polyBtoa.
    pose proof (polyBtoa_fill_ok str [] Hall) as Hfill. simpl in Hfill.
    by rewrite Hfill. }
  split; [|done]. split.
  - intros Hex. unfold polyBtoa. by rewrite polyBtoa_fill_throw.
  - intros Hthrow.
    destruct (decide (Exists (λ ch, (255 < ch)%Z) str)) as [|Hno]; [done|].
    rewrite Hok, polyBtoa_array in Hthrow; [done|].
    apply not_Exists_Forall in Hno; [|apply _].
    eapply Forall_impl; [|exact Hno]. simpl. intros ch ?. lia.
Qed.

Lemma groups_app xs ys :
  length xs mod 3 = 0 → groups (xs ++ ys) = groups xs ++ groups ys.
Proof.
  induction xs as [|x|x y|x y z rest IH] using list_ind3; try done.
  intros Hlen.
  change (length (x :: y :: z :: rest)) with (3 + length rest) in Hlen.
  replace (3 + length rest) with (length rest + 1 * 3) in Hlen by lia.
  rewrite Nat.Div0.mod_add in Hlen.
  change (groups ((x :: y :: z :: rest) ++ ys)) with
    ([s_BTOA_GET_CHAR (Some (sextet1 x)); s_BTOA_GET_CHAR (Some (sextet2 x y));
      s_BTOA_GET_CHAR (Some (sextet3 y z)); s_BTOA_GET_CHAR (Some (sextet4 z))]
     ++ groups (rest ++ ys)).
  by rewrite (IH Hlen).
Qed.

(** X17: the encoding goes by groups of three.  When the length of [xs] is
    a multiple of three, the result on [xs ++ ys] is the result on [xs]
    followed by the result on [ys]. *)
Theorem polyBtoa_app xs ys :
  length xs mod 3 = 0 →
  ∃ o1 o2,
    polyBtoa (ArgArray xs) = Normal o1 ∧ polyBtoa (ArgArray ys) = Normal o2
    ∧ polyBtoa (ArgArray (xs ++ ys)) = Normal (String.append o1 o2).
Proof.
  intros Hlen. eexists _, _. rewrite !polyBtoa_array. split_and!; try done.
  by rewrite (groups_app _ _ Hlen), string_concat_app.
Qed.

Lemma groups_low_byte array : groups ((λ x, x `mod` 256)%Z <$> array) = groups array.
Proof.
  assert (∀ x, sextet1 (x `mod` 256) = sextet1 x) as H1
    by (intros; unfold sextet1; dlia).
  assert (∀ x y, sextet2 (x `mod` 256) (y `mod` 256) = sextet2 x y) as H2
    by (intros; unfold sextet2; dlia).
  assert (∀ x, sextet2 (x `mod` 256) 0 = sextet2 x 0) as H2'
    by (intros; unfold sextet2; dlia).
  assert (∀ y z, sextet3 (y `mod` 256) (z `mod` 256) = sextet3 y z) as H3
    by (intros; unfold sextet3; dlia).
  assert (∀ y, sextet3 (y `mod` 256) 0 = sextet3 y 0) as H3'
    by (intros; unfold sextet3; dlia).
  assert (∀ z, sextet4 (z `mod` 256) = sextet4 z) as H4
    by (intros; unfold sextet4; dlia).
  induction array as [|x|x y|x y z rest IH] using list_ind3.
  - done.
  - cbn [fmap list_fmap groups]. by rewrite H1, H2'.
  - cbn [fmap list_fmap groups]. by rewrite H1, H2, H3'.
  - cbn [fmap list_fmap groups]. cbn [fmap] in IH. by rewrite H1, H2, H3, H4, IH.
Qed.

(** X18: only the low byte of an element counts.  An array element outside
    [0 .. 255] is not refused (as a code unit of a string is): the result
    is the one for the elements taken modulo 256. *)
Theorem polyBtoa_low_byte array :
  polyBtoa (ArgArray ((λ x, x `mod` 256)%Z <$> array)) = polyBtoa (ArgArray array).
Proof. by rewrite !polyBtoa_array, groups_low_byte. Qed.

Lemma string_concat_inj l1 l2 :
  Forall (λ s, String.length s = 1) l1 → Forall (λ s, String.length s = 1) l2 →
  String.concat EmptyString l1 = String.concat EmptyString l2 → l1 = l2.
Proof.
  revert l2. induction l1 as [|x l1 IH]; intros l2 Hl1 Hl2 Heq.
  - inversion Hl2 as [|y l2' Hy Hl2']; subst; [done|].
    rewrite string_concat_cons in Heq. by destruct y.
  - inversion Hl1 as [|? ? Hx Hl1']; subst.
    inversion Hl2 as [|y l2' Hy Hl2']; subst.
    + rewrite string_concat_cons in Heq. by destruct x.
    + rewrite !string_concat_cons in Heq.
      destruct x as [|cx [|]]; try done. destruct y as [|cy [|]]; try done.
      rewrite !string_append_cons in Heq. injection Heq as -> Heq.
      f_equal. by apply IH.
Qed.

Lemma GET_CHAR_inj s t :
  (0 ≤ s < 64)%Z → (0 ≤ t < 64)%Z →
  s_BTOA_GET_CHAR (Some s) = s_BTOA_GET_CHAR (Some t) → s = t.
Proof.
  intros Hs Ht Heq. destruct (GET_CHAR_spec t Ht) as (ch & Hch & _ & _ & Hinj).
  apply Hinj; [done|]. by rewrite Heq.
Qed.

Lemma GET_CHAR_not_pad s :
  (0 ≤ s < 64)%Z → s_BTOA_GET_CHAR (Some s) ≠ "="%string.
Proof.
  intros Hs. destruct (GET_CHAR_spec s Hs) as (ch & Hch & Hpad & _).
  by rewrite Hch.
Qed.

Lemma quad_eq {A} (a b c d a' b' c' d' : A) r r' :
  a :: b :: c :: d :: r = a' :: b' :: c' :: d' :: r' →
  a = a' ∧ b = b' ∧ c = c' ∧ d = d' ∧ r = r'.
Proof. by intros [= -> -> -> -> ->]. Qed.

Lemma groups_inj a1 :
  ∀ a2, Forall is_byte a1 → Forall is_byte a2 → groups a1 = groups a2 → a1 = a2.
Proof.
  induction a1 as [|x|x y|x y z rest IH] using list_ind3;
    intros [|x' [|y' [|z' rest']]] Hb1 Hb2 Heq; try done;
    repeat match goal with
      | H : Forall is_byte (_ :: _) |- _ =>
          let Hx := fresh "Hbyte" in
          inversion H as [|? ? Hx ?]; subst; clear H; unfold is_byte in Hx
      end;
    cbn [groups app] in Heq;
    apply quad_eq in Heq as (E1 & E2 & E3 & E4 & Erest).
  all: try (exfalso;
    first [ by (eapply GET_CHAR_not_pad; [|symmetry; eassumption];
                unfold sextet1, sextet2, sextet3, sextet4; dlia)
          | by (eapply GET_CHAR_not_pad; [|eassumption];
                unfold sextet1, sextet2, sextet3, sextet4; dlia) ]).
  - apply GET_CHAR_inj in E1; [|unfold sextet1; dlia..].
    apply GET_CHAR_inj in E2; [|unfold sextet2; dlia..].
    unfold sextet1, sextet2 in *. f_equal. dlia.
  - apply GET_CHAR_inj in E1; [|unfold sextet1; dlia..].
    apply GET_CHAR_inj in E2; [|unfold sextet2; dlia..].
    apply GET_CHAR_inj in E3; [|unfold sextet3; dlia..].
    unfold sextet1, sextet2, sextet3 in *.
    assert (x = x' ∧ y = y') as [-> ->] by dlia. done.
  - apply GET_CHAR_inj in E1; [|unfold sextet1; dlia..].
    apply GET_CHAR_inj in E2; [|unfold sextet2; dlia..].
    apply GET_CHAR_inj in E3; [|unfold sextet3; dlia..].
    apply GET_CHAR_inj in E4; [|unfold sextet4; dlia..].
    unfold sextet1, sextet2, sextet3, sextet4 in *.
    assert (x = x' ∧ y = y' ∧ z = z') as (-> & -> & ->) by dlia.
    do 3 f_equal. by apply IH.
Qed.

(** X19: nothing is lost.  Two arrays of bytes with the same result are
    the same array. *)
Theorem polyBtoa_injective a1 a2 :
  Forall is_byte a1 → Forall is_byte a2 →
  polyBtoa (ArgArray a1) = polyBtoa (ArgArray a2) → a1 = a2.
Proof.
  intros Hb1 Hb2. rewrite !polyBtoa_array. intros [= Heq].
  apply groups_inj; [done..|].
  by apply string_concat_inj; [apply groups_single..|].
Qed.

Lemma polyBtoa_app_witness :
  ∃ o1 o2,
    polyBtoa (ArgArray [77; 97; 110]%Z) = Normal o1
    ∧ polyBtoa (ArgArray [77; 97]%Z) = Normal o2
    ∧ polyBtoa (ArgArray ([77; 97; 110] ++ [77; 97])%Z) = Normal (String.append o1 o2).
Proof. apply (polyBtoa_app [77; 97; 110]%Z [77; 97]%Z). reflexivity. Defined.

Lemma polyBtoa_injective_witness : [77; 97; 110]%Z = [77; 97; 110]%Z.
Proof.
  apply (polyBtoa_injective [77; 97; 110]%Z [77; 97; 110]%Z).
  - repeat constructor; unfold is_byte; lia.
  - repeat constructor; unfold is_byte; lia.
  - reflexivity.
Defined.

End btoa_facts.
